(** * Path-addressed access to nested form values: getIn, setIn, deleteIn

    A shallow embedding of [src/internal/deep-copy.ts] and of [filterData],
    the function of [src/index.ts] that calls it, with the properties the
    specification states about the three functions and further properties of
    the code.

    The three functions walk a dotted path through nested JavaScript objects
    and arrays.  The data they are given is tree shaped (form values, the
    result of [JSON.parse] or [structuredClone]), so a node is modelled by the
    tree below it and an in-place mutation of a node by the new tree that the
    parent then holds.  A local variable that is rebound to a fresh object
    the parent does not hold is modelled as such: the parent keeps what it
    had.  A value that [setIn] writes is taken to share no node with the
    nodes the call walks through.

    What is modelled of the language: own properties of plain objects and of
    arrays (with the array [length]), the characters and [length] of string
    primitives, numbers as IEEE 754 binary64 values, and the errors the
    language raises in strict mode (the file is an ES module).  Properties
    inherited from prototypes are not modelled: the properties that depend
    on what is read or written under the segments of a path are stated for
    paths without the name of an inherited property ([ownPath] below, which
    excludes [constructor], [__proto__], [toString] and the like).
    Accessors and frozen objects are not modelled, and neither is the order
    in which an object enumerates its properties. *)

From Stdlib Require Import ZArith String Ascii List Lia Bool.
From stdpp Require Import gmap strings list fin_maps.

Set Warnings "-register-all".
Local Open Scope Z_scope.

(** ** Numbers and their conversions from and to strings

    [isIndex] is [String(+s) === s]: it converts the segment to a number and
    the number back to a string.  The two conversions are the ones of the
    language (StringToNumber and Number::toString of ECMAScript), on strings
    of code units below 256.  A decimal literal is rounded to the nearest
    binary64 value, ties to even, and a number is printed with the fewest
    digits that convert back to it, as JavaScript engines do. *)

Module JS.

(** A binary64 value: [Fin neg m e] is [(-1)^neg * m * 2^e], with
    [2^52 <= m < 2^53] and [-1074 <= e <= 971], or [m < 2^52] and
    [e = -1074] for the subnormal numbers. *)
Inductive number :=
| NaN
| Inf (neg : bool)
| Zero (neg : bool)
| Fin (neg : bool) (m : positive) (e : Z).

#[global] Instance number_eq_dec : EqDecision number.
Proof. solve_decision. Defined.

Definition prec : Z := 53.
Definition emin : Z := -1074.
Definition emax : Z := 971.

(** [2^d <= p/q] *)
Definition ge_pow2 (p q d : Z) : bool :=
  if 0 <=? d then q * 2 ^ d <=? p else q <=? p * 2 ^ (- d).

(** The integer part of the binary logarithm of [p/q]. *)
Definition ilog2_ratio (p q : Z) : Z :=
  let d := Z.log2 p - Z.log2 q in
  if ge_pow2 p q d then d else d - 1.

(** [num/den] rounded to the nearest integer, ties to even. *)
Definition round_half_even (num den : Z) : Z :=
  let m := num / den in
  match 2 * (num mod den) ?= den with
  | Lt => m
  | Gt => m + 1
  | Eq => if Z.even m then m else m + 1
  end.

(** The binary64 value nearest to [p/q] (ties to even), for [0 <= p] and
    [0 < q]. *)
Definition round_ratio (neg : bool) (p q : Z) : number :=
  if p =? 0 then Zero neg else
  let e := Z.max (ilog2_ratio p q - (prec - 1)) emin in
  let m := if 0 <=? e then round_half_even p (q * 2 ^ e)
           else round_half_even (p * 2 ^ (- e)) q in
  let '(m, e) := if m =? 2 ^ prec then (2 ^ (prec - 1), e + 1) else (m, e) in
  if emax <? e then Inf neg else
  match m with Zpos m => Fin neg m e | _ => Zero neg end.

(** The binary64 value nearest to [m * 10^e]. *)
Definition of_decimal (neg : bool) (m e : Z) : number :=
  if 0 <=? e then round_ratio neg (m * 10 ^ e) 1
  else round_ratio neg m (10 ^ (- e)).

Definition of_Z (n : Z) : number :=
  if n <? 0 then round_ratio true (- n) 1 else round_ratio false n 1.

(** *** Characters *)

Definition code (c : ascii) : Z := Z.of_N (N_of_ascii c).

Definition chr (n : Z) : ascii := ascii_of_N (Z.to_N n).

(** White space of [StrWhiteSpaceChar] among the code units below 256: TAB,
    LF, VT, FF, CR, SP and NBSP. *)
Definition is_space (c : ascii) : bool :=
  let n := code c in
  ((9 <=? n) && (n <=? 13)) || (n =? 32) || (n =? 160).

Fixpoint drop_space (l : list ascii) : list ascii :=
  match l with
  | c :: l' => if is_space c then drop_space l' else l
  | [] => []
  end.

Definition trim (l : list ascii) : list ascii :=
  rev (drop_space (rev (drop_space l))).

(** The value of a digit in the given radix. *)
Definition digit_of (radix : Z) (c : ascii) : option Z :=
  let n := code c in
  let d := if (48 <=? n) && (n <=? 57) then n - 48
           else if (97 <=? n) && (n <=? 122) then n - 87
           else if (65 <=? n) && (n <=? 90) then n - 55
           else 36 in
  if d <? radix then Some d else None.

(** The longest prefix of digits, as their values, and what follows it. *)
Fixpoint span_digits (radix : Z) (l : list ascii) : list Z * list ascii :=
  match l with
  | c :: l' =>
      match digit_of radix c with
      | Some d => let '(ds, r) := span_digits radix l' in (d :: ds, r)
      | None => ([], l)
      end
  | [] => ([], [])
  end.

Definition digits_value (radix : Z) (ds : list Z) : Z :=
  fold_left (fun acc d => radix * acc + d) ds 0.

(** *** StringToNumber *)

(** [ExponentPart_opt] at the end of the literal. *)
Definition parse_exponent (l : list ascii) : option Z :=
  match l with
  | [] => Some 0
  | c :: r =>
      if (code c =? 101) || (code c =? 69) then
        let '(neg, r') :=
          match r with
          | s :: r' =>
              if code s =? 45 then (true, r')
              else if code s =? 43 then (false, r') else (false, r)
          | [] => (false, r)
          end in
        match span_digits 10 r' with
        | (d :: ds, []) =>
            let v := digits_value 10 (d :: ds) in
            Some (if neg : bool then - v else v)
        | _ => None
        end
      else None
  end.

(** [StrUnsignedDecimalLiteral] *)
Definition parse_unsigned (neg : bool) (l : list ascii) : number :=
  if bool_decide (l = list_ascii_of_string "Infinity") then Inf neg else
  let '(ip, r1) := span_digits 10 l in
  let '(fp, r2) :=
    match r1 with
    | c :: r => if code c =? 46 then span_digits 10 r else ([], r1)
    | [] => ([], r1)
    end in
  match ip ++ fp with
  | [] => NaN
  | ds =>
      match parse_exponent r2 with
      | Some ex => of_decimal neg (digits_value 10 ds) (ex - Z.of_nat (length fp))
      | None => NaN
      end
  end.

(** [NonDecimalIntegerLiteral]: [0x], [0o] or [0b] and digits. *)
Definition parse_radix (l : list ascii) : option number :=
  match l with
  | z :: p :: r =>
      if code z =? 48 then
        let radix :=
          if (code p =? 120) || (code p =? 88) then Some 16
          else if (code p =? 111) || (code p =? 79) then Some 8
          else if (code p =? 98) || (code p =? 66) then Some 2
          else None in
        match radix with
        | Some rx =>
            match span_digits rx r with
            | (d :: ds, []) => Some (of_Z (digits_value rx (d :: ds)))
            | _ => Some NaN
            end
        | None => None
        end
      else None
  | _ => None
  end.

(** The unary plus on a string, [+s]. *)
Definition toNumber (s : string) : number :=
  match trim (list_ascii_of_string s) with
  | [] => Zero false
  | (c :: r) as l =>
      match parse_radix l with
      | Some x => x
      | None =>
          if code c =? 45 then parse_unsigned true r
          else if code c =? 43 then parse_unsigned false r
          else parse_unsigned false l
      end
  end.

(** *** Number::toString *)

(** The decimal digits of a non-negative integer. *)
Fixpoint dec_go (fuel : nat) (n : Z) (acc : list ascii) : list ascii :=
  match fuel with
  | O => acc
  | S f =>
      let acc' := chr (48 + n mod 10) :: acc in
      if n <? 10 then acc' else dec_go f (n / 10) acc'
  end.

Definition dec_digits (n : Z) : list ascii :=
  dec_go (S (Z.to_nat (Z.log2 n))) n [].

Definition dec (n : Z) : string := string_of_list_ascii (dec_digits n).

(** The least [n >= 0] with [a < b * 10^n], counting from [n]. *)
Fixpoint exp_up (fuel : nat) (a b n : Z) : Z :=
  match fuel with
  | O => n
  | S f => if a <? b then n else exp_up f a (10 * b) (n + 1)
  end.

(** The greatest [n <= 0] with [b * 10^(n-1) <= a], counting from [-j]. *)
Fixpoint exp_down (fuel : nat) (a b j : Z) : Z :=
  match fuel with
  | O => - j
  | S f => if b <=? 10 * a then - j else exp_down f (10 * a) b (j + 1)
  end.

(** The [n] with [10^(n-1) <= a/b < 10^n], for a positive binary64 [a/b]. *)
Definition dec_exponent (a b : Z) : Z :=
  if a <? b then exp_down 400 a b 0 else exp_up 400 a b 0.

(** The integer [s] of [k] digits for which [s * 10^(n-k)] converts back to
    [x] and is nearest to [a/b], the exact value of [x]; none when no integer
    of [k] digits converts back to [x]. *)
Definition try_digits (x : number) (a b n k : Z) : option Z :=
  let sh := k - n in
  let num := if 0 <=? sh then a * 10 ^ sh else a in
  let den := if 0 <=? sh then b else b * 10 ^ (- sh) in
  let f := num / den in
  let r := num mod den in
  let okf := bool_decide (of_decimal false f (n - k) = x) in
  let okc := bool_decide (of_decimal false (f + 1) (n - k) = x) in
  if r =? 0 then (if okf then Some f else None) else
  match okf, okc with
  | true, true =>
      match 2 * r ?= den with
      | Lt => Some f
      | Gt => Some (f + 1)
      | Eq => Some (if Z.even f then f else f + 1)
      end
  | true, false => Some f
  | false, true => Some (f + 1)
  | false, false => None
  end.

Fixpoint shortest_go (fuel : nat) (x : number) (a b n k : Z) : Z * Z :=
  match fuel with
  | O => (0, k)
  | S f =>
      match try_digits x a b n k with
      | Some s => (s, k)
      | None => shortest_go f x a b n (k + 1)
      end
  end.

Fixpoint strip_zeros_rev (l : list ascii) : list ascii :=
  match l with
  | c :: l' => if code c =? 48 then strip_zeros_rev l' else l
  | [] => []
  end.

Definition strip_zeros (l : list ascii) : list ascii :=
  rev (strip_zeros_rev (rev l)).

Definition zeros (n : Z) : list ascii := repeat (chr 48) (Z.to_nat n).

(** The digits [d1 .. dk] and the exponent [n] of the shortest decimal
    [0.d1..dk * 10^n] that converts back to [m * 2^e]. *)
Definition shortest (m : positive) (e : Z) : list ascii * Z :=
  let a := if 0 <=? e then Zpos m * 2 ^ e else Zpos m in
  let b := if 0 <=? e then 1 else 2 ^ (- e) in
  let n := dec_exponent a b in
  let '(s, k) := shortest_go 17 (Fin false m e) a b n 1 in
  let ds := dec_digits s in
  (strip_zeros ds, n - k + Z.of_nat (length ds)).

Definition format (ds : list ascii) (n : Z) : list ascii :=
  let k := Z.of_nat (length ds) in
  if (k <=? n) && (n <=? 21) then ds ++ zeros (n - k)
  else if (0 <? n) && (n <=? 21) then
    take (Z.to_nat n) ds ++ chr 46 :: drop (Z.to_nat n) ds
  else if (-6 <? n) && (n <=? 0) then
    chr 48 :: chr 46 :: zeros (- n) ++ ds
  else
    let ex := chr 101 :: chr (if n - 1 <? 0 then 45 else 43)
              :: dec_digits (Z.abs (n - 1)) in
    match ds with
    | [d] => d :: ex
    | d :: ds' => d :: chr 46 :: ds' ++ ex
    | [] => ex
    end.

(** [String(x)] for a number [x]. *)
Definition numberToString (x : number) : string :=
  match x with
  | NaN => "NaN"
  | Zero _ => "0"
  | Inf neg => if neg then "-Infinity" else "Infinity"
  | Fin neg m e =>
      let '(ds, n) := shortest m e in
      string_of_list_ascii ((if neg then [chr 45] else []) ++ format ds n)
  end.

End JS.

(** ** Values, property access and the errors of the language *)

Inductive val :=
| VUndef
| VNull
| VBool (b : bool)
| VNum (x : JS.number)
| VStr (s : string)
| VObj (props : gmap string val)
| VArr (len : Z) (props : gmap string val).

(** [ExpectedArray] is the error of [setIn] itself ("setIn: expected array
    container"); the other two are raised by the language. *)
Inductive error := ExpectedArray | TypeError | RangeError.

Inductive completion (A : Type) :=
| Normal (a : A)
| Throw (e : error).
Arguments Normal {A} a.
Arguments Throw {A} e.

(** [v == null] *)
Definition nullish (v : val) : bool :=
  match v with VUndef | VNull => true | _ => false end.

(** [Array.isArray(v)] *)
Definition isArray (v : val) : bool :=
  match v with VArr _ _ => true | _ => false end.

(** [typeof v === "object" && v !== null] *)
Definition isObjectType (v : val) : bool :=
  match v with VObj _ | VArr _ _ => true | _ => false end.

(** ToBoolean *)
Definition truthy (v : val) : bool :=
  match v with
  | VUndef | VNull => false
  | VBool b => b
  | VNum JS.NaN | VNum (JS.Zero _) => false
  | VNum _ => true
  | VStr s => negb (String.eqb s "")
  | VObj _ | VArr _ _ => true
  end.

(** [child && typeof child === "object" && !Array.isArray(child) &&
    Object.keys(child).length === 0] *)
Definition isEmptyObject (child : val) : bool :=
  match child with VObj props => (size props =? 0)%nat | _ => false end.

(** The non-negative integer a string is the canonical decimal of: the
    string is made of decimal digits, and printing the integer they denote
    gives the string back (so ["01"] denotes none). *)
Definition canonicalNat (s : string) : option Z :=
  match JS.span_digits 10 (list_ascii_of_string s) with
  | (d :: ds, []) =>
      let n := JS.digits_value 10 (d :: ds) in
      if String.eqb (JS.dec n) s then Some n else None
  | _ => None
  end.

(** The index a property key denotes when it is an array index: the
    canonical decimal of an integer below [2^32 - 1]. *)
Definition array_index (k : string) : option Z :=
  match canonicalNat k with
  | Some n => if n <? 2 ^ 32 - 1 then Some n else None
  | None => None
  end.

Fixpoint join (l : list string) : string :=
  match l with
  | [] => ""
  | [s] => s
  | s :: l' => s +:+ "," +:+ join l'
  end.

(** ToString on the values of the model; an array is joined as
    [Array.prototype.toString] does. *)
Fixpoint toStringV (v : val) : string :=
  match v with
  | VUndef => "undefined"
  | VNull => "null"
  | VBool b => if b then "true" else "false"
  | VNum x => JS.numberToString x
  | VStr s => s
  | VObj _ => "[object Object]"
  | VArr len props =>
      let strs := (fun e => match e with
                            | VUndef | VNull => ""
                            | _ => toStringV e
                            end) <$> props in
      join (map (fun i => default "" (strs !! JS.dec (Z.of_nat i)))
                (seq 0 (Z.to_nat len)))
  end.

(** ToNumber on the values of the model. *)
Definition toNumberV (v : val) : JS.number :=
  match v with
  | VUndef => JS.NaN
  | VNull => JS.Zero false
  | VBool b => if b then JS.of_Z 1 else JS.Zero false
  | VNum x => x
  | VStr s => JS.toNumber s
  | VObj _ | VArr _ _ => JS.toNumber (toStringV v)
  end.

(** The array length a number denotes, when it is an integer below
    [2^32]. *)
Definition valid_length (x : JS.number) : option Z :=
  match x with
  | JS.Zero _ => Some 0
  | JS.Fin false m e =>
      let n := if 0 <=? e then Zpos m * 2 ^ e
               else if Zpos m mod 2 ^ (- e) =? 0 then Zpos m / 2 ^ (- e)
               else -1 in
      if (0 <=? n) && (n <? 2 ^ 32) then Some n else None
  | _ => None
  end.

Definition below_length (n : Z) (k : string) : bool :=
  match array_index k with Some i => i <? n | None => true end.

(** [v[k]] for a [v] that is not null or undefined. *)
Definition get_prop (v : val) (k : string) : val :=
  match v with
  | VObj props => default VUndef (props !! k)
  | VArr len props =>
      if String.eqb k "length" then VNum (JS.of_Z len)
      else default VUndef (props !! k)
  | VStr s =>
      if String.eqb k "length" then VNum (JS.of_Z (Z.of_nat (String.length s)))
      else match array_index k with
           | Some i =>
               match String.get (Z.to_nat i) s with
               | Some c => VStr (String c "")
               | None => VUndef
               end
           | None => VUndef
           end
  | _ => VUndef
  end.

(** [v[k] = x]: the node after the assignment, and the error it raised. *)
Definition set_prop (v : val) (k : string) (x : val) : val * option error :=
  match v with
  | VObj props => (VObj (<[k := x]> props), None)
  | VArr len props =>
      if String.eqb k "length" then
        match valid_length (toNumberV x) with
        | Some n =>
            if len <=? n then (VArr n props, None)
            else (VArr n (filter (fun kv => below_length n kv.1 = true) props),
                  None)
        | None => (v, Some RangeError)
        end
      else
        match array_index k with
        | Some i => (VArr (Z.max len (i + 1)) (<[k := x]> props), None)
        | None => (VArr len (<[k := x]> props), None)
        end
  | _ => (v, Some TypeError)
  end.

(** [delete v[k]] for an object or an array [v]. *)
Definition delete_prop (v : val) (k : string) : val * option error :=
  match v with
  | VObj props => (VObj (delete k props), None)
  | VArr len props =>
      if String.eqb k "length" then (v, Some TypeError)
      else (VArr len (delete k props), None)
  | _ => (v, None)
  end.

(** The parent after the child it holds under [k] was mutated in place into
    [child]. *)
Definition link (parent : val) (k : string) (child : val) : val :=
  match parent with
  | VObj props => VObj (alter (fun _ => child) k props)
  | VArr len props =>
      if String.eqb k "length" then parent
      else VArr len (alter (fun _ => child) k props)
  | _ => parent
  end.

(** ** The functions of deep-copy.ts *)

(** [const splitPath = (p: string) => p.split(".")] *)
Fixpoint splitPath (p : string) : list string :=
  match p with
  | EmptyString => [""]
  | String c p' =>
      if Ascii.eqb c "." then "" :: splitPath p'
      else match splitPath p' with
           | s :: l => String c s :: l
           | [] => [String c ""]
           end
  end.

(** [const isIndex = (s: string) => String(+s) === s] *)
Definition isIndex (s : string) : bool :=
  String.eqb (JS.numberToString (JS.toNumber s)) s.

(** The property key of [x[+segment]]. *)
Definition numKey (segment : string) : string :=
  JS.numberToString (JS.toNumber segment).

(** The loop of [getIn], from [current] over the segments left. *)
Fixpoint getIn_loop (segments : list string) (current : val) : val :=
  match segments with
  | [] => current
  | segment :: rest =>
      if nullish current then VUndef
      else getIn_loop rest
             (if isIndex segment then get_prop current (numKey segment)
              else get_prop current segment)
  end.

Definition getIn (obj : val) (path : string) : val :=
  getIn_loop (splitPath path) obj.

(** [isIndex(segments[i + 1]) ? [] : {}] *)
Definition fresh (next : string) : val :=
  if isIndex next then VArr 0 ∅ else VObj ∅.

(** The loop of [setIn] from [current] over the segments left: the node
    [current] referred to as the loop leaves it, and the error that ended
    the loop early. *)
Fixpoint setIn_loop (segments : list string) (current value : val)
  : val * option error :=
  match segments with
  | [] => (current, None)
  | [segment] =>
      if isIndex segment then
        if isArray current then set_prop current (numKey segment) value
        else
          (* [current = []] rebinds the local variable: the value is
             assigned into an array that nothing refers to *)
          (current, None)
      else set_prop current segment value
  | segment :: (next :: _) as rest =>
      if isIndex segment then
        if negb (isArray current) then (current, Some ExpectedArray)
        else
          let '(arr, e) :=
            if negb (truthy (get_prop current (numKey segment)))
            then set_prop current (numKey segment) (fresh next)
            else (current, None) in
          match e with
          | Some e => (arr, Some e)
          | None =>
              let '(child, e) :=
                setIn_loop rest (get_prop arr (numKey segment)) value in
              (link arr (numKey segment) child, e)
          end
      else
        if nullish current then (current, Some TypeError)
        else
          let '(obj, e) :=
            if negb (truthy (get_prop current segment))
            then set_prop current segment (fresh next)
            else (current, None) in
          match e with
          | Some e => (obj, Some e)
          | None =>
              let '(child, e) :=
                setIn_loop rest (get_prop obj segment) value in
              (link obj segment child, e)
          end
  end.

Definition setIn (target : val) (path : string) (value : val)
  : val * option error :=
  setIn_loop (splitPath path) target value.

(** The last three statements of [deleteNode]. *)
Definition reportEmpty (node : val) : bool :=
  match node with
  | VArr _ _ => false
  | VObj props => (size props =? 0)%nat
  | _ => false
  end.

(** [deleteNode(node, i)] with [segment = segments[i]] and [rest] the
    segments after it: the node as the call leaves it, and what the call
    returns. *)
Fixpoint deleteNode (segment : string) (rest : list string) (node : val)
  {struct rest} : val * completion bool :=
  if nullish node then (node, Normal true) else
  match rest with
  | [] =>
      let '(node', e) :=
        if isIndex segment && isArray node then delete_prop node (numKey segment)
        else if isObjectType node then delete_prop node segment
        else (node, None) in
      match e with
      | Some e => (node', Throw e)
      | None => (node', Normal (reportEmpty node'))
      end
  | segment' :: rest' =>
      let key :=
        if isIndex segment then
          if isArray node then Some (numKey segment) else None
        else if isObjectType node then Some segment else None in
      let next := match key with Some k => get_prop node k | None => VUndef end in
      let '(next', r) := deleteNode segment' rest' next in
      let node1 := match key with Some k => link node k next' | None => node end in
      match r with
      | Throw e => (node1, Throw e)
      | Normal empty =>
          let '(node2, e) :=
            if empty then
              if isIndex segment && isArray node1 then
                if isEmptyObject (get_prop node1 (numKey segment))
                then delete_prop node1 (numKey segment) else (node1, None)
              else if isObjectType node1 then
                if isEmptyObject (get_prop node1 segment)
                then delete_prop node1 segment else (node1, None)
              else (node1, None)
            else (node1, None) in
          match e with
          | Some e => (node2, Throw e)
          | None => (node2, Normal (reportEmpty node2))
          end
      end
  end.

Definition deleteIn (obj : val) (path : string) : val * completion bool :=
  match splitPath path with
  | segment :: rest => deleteNode segment rest obj
  | [] => (obj, Normal true)
  end.

(** ** The caller of the three functions: filterData of index.ts

    [filterData] is the callback of the hook that selects what is persisted
    of the form values: the paths of [include] when there are some, else all
    but the paths of [exclude].  [include] and [exclude] are optional
    ([None] is [undefined]); [include?.length] is falsy when the list is
    absent or empty.

    The values [setIn] writes into [picked] are nodes of [data] themselves.
    A later path of [include] that goes on below such a value would make
    [setIn] walk, and possibly write, inside [data]; the properties of the
    include branch are stated for paths none of which goes on below another
    one, where no node is shared between a walk and [data].
    [structuredClone] gives a copy that shares nothing with [data]: on the
    trees of the model it is the identity. *)

(** [v === undefined] *)
Definition isUndefined (v : val) : bool :=
  match v with VUndef => true | _ => false end.

(** [for (const p of include) { ... }], from [picked] over the paths left. *)
Fixpoint filterData_include (data : val) (include : list string) (picked : val)
  : completion val :=
  match include with
  | [] => Normal picked
  | p :: include' =>
      let value := getIn data p in
      if negb (isUndefined value) then
        match setIn picked p value with
        | (picked', None) => filterData_include data include' picked'
        | (_, Some e) => Throw e
        end
      else filterData_include data include' picked
  end.

(** [for (const p of exclude) deleteIn(pruned, p)], from [pruned] over the
    paths left. *)
Fixpoint filterData_exclude (exclude : list string) (pruned : val)
  : completion val :=
  match exclude with
  | [] => Normal pruned
  | p :: exclude' =>
      match deleteIn pruned p with
      | (pruned', Normal _) => filterData_exclude exclude' pruned'
      | (_, Throw e) => Throw e
      end
  end.

Definition filterData (data : val) (include exclude : option (list string))
  : completion val :=
  match include with
  | Some ((_ :: _) as include) => filterData_include data include (VObj ∅)
  | _ =>
      match exclude with
      | Some ((_ :: _) as exclude) => filterData_exclude exclude data
      | _ => Normal data
      end
  end.

(** ** Definitions the properties are stated with *)

(** *** Inherited properties

    The property access of the model ([get_prop], [set_prop],
    [delete_prop]) is the access to the own properties of a value.  It is
    what [v[k]], [v[k] = x] and [delete v[k]] do when [k] is not the name of
    a property that [v] inherits: under such a name the language reads or
    writes through the prototype, which the model does not hold.  The names
    below are those that the prototypes of the language (ECMAScript 2025
    with its Annex B) give to objects, arrays, strings, numbers and
    booleans, taken together for all these kinds, in an environment that has
    added nothing to these prototypes.  A property that depends on what is
    read or written under the segments of a path carries the hypothesis that
    none of them is such a name. *)
Definition inheritedNames : list string :=
  [ (* Object.prototype *)
    "constructor"; "__proto__"; "__defineGetter__"; "__defineSetter__";
    "__lookupGetter__"; "__lookupSetter__"; "hasOwnProperty"; "isPrototypeOf";
    "propertyIsEnumerable"; "toLocaleString"; "toString"; "valueOf";
    (* Array.prototype *)
    "at"; "concat"; "copyWithin"; "entries"; "every"; "fill"; "filter";
    "find"; "findIndex"; "findLast"; "findLastIndex"; "flat"; "flatMap";
    "forEach"; "includes"; "indexOf"; "join"; "keys"; "lastIndexOf"; "map";
    "pop"; "push"; "reduce"; "reduceRight"; "reverse"; "shift"; "slice";
    "some"; "sort"; "splice"; "toReversed"; "toSorted"; "toSpliced";
    "unshift"; "values"; "with";
    (* String.prototype *)
    "charAt"; "charCodeAt"; "codePointAt"; "endsWith"; "isWellFormed";
    "localeCompare"; "match"; "matchAll"; "normalize"; "padEnd"; "padStart";
    "repeat"; "replace"; "replaceAll"; "search"; "split"; "startsWith";
    "substring"; "toLocaleLowerCase"; "toLocaleUpperCase"; "toLowerCase";
    "toUpperCase"; "toWellFormed"; "trim"; "trimEnd"; "trimStart";
    "substr"; "anchor"; "big"; "blink"; "bold"; "fixed"; "fontcolor";
    "fontsize"; "italics"; "link"; "small"; "strike"; "sub"; "sup";
    "trimLeft"; "trimRight";
    (* Number.prototype *)
    "toExponential"; "toFixed"; "toPrecision" ].

(** [k] names a property that values inherit. *)
Definition inherited (k : string) : bool :=
  existsb (String.eqb k) inheritedNames.

(** No segment names an inherited property. *)
Definition ownSegments (segments : list string) : bool :=
  forallb (fun s => negb (inherited s)) segments.

Definition ownPath (path : string) : bool := ownSegments (splitPath path).

(** The container holds, after [container[segment] = value], the value
    under the segment: it is a sequence when the segment is an index
    segment ([setIn] assigns into no other container then), and with a key
    segment an object, the key not being the [length] of a sequence (whose
    assignment sets the length to the number the value converts to). *)
Definition takesWrite (segment : string) (container : val) : bool :=
  if isIndex segment then isArray container
  else isObjectType container
       && negb (isArray container && String.eqb segment "length").

Definition isMapping (v : val) : bool :=
  match v with VObj _ => true | _ => false end.

(** The container kind a segment addresses: a sequence for an index segment,
    a mapping for a key segment. *)
Definition kindAgrees (segment : string) (container : val) : bool :=
  if isIndex segment then isArray container else isMapping container.

(** The first half of a non-terminal step of [setIn]: the child under
    [segment] is created when what is there is falsy. *)
Definition vivify (current : val) (segment next : string) : val * option error :=
  if negb (truthy (get_prop current segment))
  then set_prop current segment (fresh next)
  else (current, None).

(** The segments before the last one, and the last one. *)
Definition parentSegments (path : string) : list string :=
  removelast (splitPath path).

Definition lastSegment (path : string) : string :=
  List.last (splitPath path) "".

(** Whether [deleteNode] reads its [next] from the node: an index segment
    reads from an array only, a key segment from any object. *)
Definition hasNext (segment : string) (node : val) : bool :=
  if isIndex segment then isArray node else isObjectType node.

(** [next] in [deleteNode]. *)
Definition nextNode (segment : string) (node : val) : val :=
  if isIndex segment then
    if isArray node then get_prop node (numKey segment) else VUndef
  else if isObjectType node then get_prop node segment else VUndef.

(** The pruning step of [deleteNode] after the recursive call has reported
    its subtree empty. *)
Definition prune (node : val) (segment : string) : val * option error :=
  if isObjectType node then
    if isEmptyObject (get_prop node segment) then delete_prop node segment
    else (node, None)
  else (node, None).

(** The node the recursion of [deleteNode] is called on after the segments
    [pre], from [node]; [undefined] when the recursion has ended before. *)
Fixpoint deleteWalk (pre : list string) (node : val) : val :=
  match pre with
  | [] => node
  | segment :: pre' =>
      if nullish node then VUndef else deleteWalk pre' (nextNode segment node)
  end.


(** A mapping without property, or a sequence without element. *)
Definition isEmptyContainer (v : val) : bool :=
  match v with
  | VObj props | VArr _ props => (size props =? 0)%nat
  | _ => false
  end.



(** The classification of a segment in the words of the specification: an
    index segment is the canonical decimal string of a non-negative
    integer. *)
Definition specIndexSegment (s : string) : bool :=
  match canonicalNat s with Some _ => true | None => false end.

(** The character of a decimal digit. *)
Definition dch (d : Z) : ascii := JS.chr (48 + d).

Definition isDigit (d : Z) : Prop := 0 <= d <= 9.

(** The data of the repository's tests of the three functions. *)
Definition sample : val :=
  VObj {[
    "user" := VObj {[
      "name" := VStr "John";
      "address" := VObj {[ "city" := VStr "LA"; "zip" := VStr "90001" ]};
      "tags" := VArr 2 {[ "0" := VStr "a"; "1" := VStr "b" ]};
      "contacts" := VArr 2 {[
        "0" := VObj {[ "type" := VStr "email"; "value" := VStr "john@example.com" ]};
        "1" := VObj {[ "type" := VStr "phone"; "value" := VStr "123" ]} ]} ]} ]}.

(** [setIn] and then the next call on the root it leaves. *)
Definition andThen (r : val * option error) (f : val -> val * option error)
  : val * option error :=
  match r with
  | (root, None) => f root
  | (root, Some e) => (root, Some e)
  end.

(** [segments.join(".")] *)
Fixpoint joinPath (segments : list string) : string :=
  match segments with
  | [] => ""
  | [s] => s
  | s :: rest => s +:+ "." +:+ joinPath rest
  end.

(** The string has no dot. *)
Fixpoint dotFree (s : string) : bool :=
  match s with
  | EmptyString => true
  | String c s' => negb (Ascii.eqb c ".") && dotFree s'
  end.

(** Two lists of segments part: they go the same way up to a position where
    both have a segment, and the two segments differ. *)
Fixpoint diverge (l1 l2 : list string) : bool :=
  match l1, l2 with
  | s1 :: r1, s2 :: r2 => if String.eqb s1 s2 then diverge r1 r2 else true
  | _, _ => false
  end.

(** They part at two segments of the same kind: two index segments or two
    key segments. *)
Fixpoint apart (l1 l2 : list string) : bool :=
  match l1, l2 with
  | s1 :: r1, s2 :: r2 =>
      if String.eqb s1 s2 then apart r1 r2
      else Bool.eqb (isIndex s1) (isIndex s2)
  | _, _ => false
  end.

(** The segments [q] end inside the segments [p]: [q] is [p] cut short. *)
Fixpoint endsInside (q p : list string) : bool :=
  match q, p with
  | [], _ :: _ => true
  | s :: q', t :: p' => String.eqb s t && endsInside q' p'
  | _, _ => false
  end.

(** The node conforms to the segments: as far as the segments lead through
    nodes that are there, each node is a container of the kind its segment
    addresses. *)
Fixpoint conforms (segments : list string) (node : val) : bool :=
  match segments with
  | [] => true
  | segment :: rest =>
      kindAgrees segment node &&
      match rest with
      | [] => true
      | _ :: _ =>
          match get_prop node segment with
          | VUndef => true
          | child => conforms rest child
          end
      end
  end.

(** The walk of [deleteNode] goes the way [getIn] reads: each node before
    the last is absent or one [deleteNode] reads its [next] from, and the
    last is absent or an object. *)
Fixpoint deletable (segment : string) (rest : list string) (node : val)
  {struct rest} : bool :=
  nullish node ||
  match rest with
  | [] => isObjectType node
  | segment' :: rest' =>
      hasNext segment node && deletable segment' rest' (get_prop node segment)
  end.

Definition deletablePath (root : val) (path : string) : bool :=
  match splitPath path with
  | segment :: rest => deletable segment rest root
  | [] => false
  end.

(** The nested mappings [setIn] creates for key segments. *)
Fixpoint chain (segments : list string) (value : val) : val :=
  match segments with
  | [] => value
  | segment :: rest => VObj {[ segment := chain rest value ]}
  end.

(** The kind of a value: the value itself when it is primitive. *)
Definition shape (v : val) : val :=
  match v with
  | VObj _ => VObj ∅
  | VArr _ _ => VArr 0 ∅
  | _ => v
  end.

(** Every segment of the path is a key segment. *)
Definition keysOnly (path : string) : bool :=
  forallb (fun s => negb (isIndex s)) (splitPath path).

Definition firstSegment (path : string) : string := hd "" (splitPath path).

(** The path starts with a key segment. *)
Definition keyFirst (path : string) : bool := negb (isIndex (firstSegment path)).

(** No segment of the path is ["length"]. *)
Definition noLength (path : string) : bool :=
  forallb (fun s => negb (String.eqb s "length")) (splitPath path).

(** Any two of the paths are the same path, or part at two segments of the
    same kind: none goes on below another one. *)
Definition independent (paths : list string) : bool :=
  forallb (fun p1 =>
    forallb (fun p2 =>
      String.eqb p1 p2 || apart (splitPath p1) (splitPath p2)) paths) paths.

(** The walk of [deleteNode] ends before the last segment at a node it does
    not read its [next] from: a node that is no array before an index
    segment, or no object before a key segment. *)
Fixpoint passesOver (segment : string) (rest : list string) (node : val)
  {struct rest} : bool :=
  match rest with
  | [] => false
  | segment' :: rest' =>
      negb (nullish node) &&
      (negb (hasNext segment node)
       || passesOver segment' rest' (get_prop node segment))
  end.

Definition passesOverPath (root : val) (path : string) : bool :=
  match splitPath path with
  | segment :: rest => passesOver segment rest root
  | [] => false
  end.

(** * Properties *)

(** ** The tests of the repository *)

Example test_getIn :
  getIn sample "user.name" = VStr "John" /\
  getIn sample "user.address.city" = VStr "LA" /\
  getIn sample "user.tags.1" = VStr "b" /\
  getIn sample "user.contacts.0.type" = VStr "email" /\
  getIn sample "user.missing" = VUndef.
Proof. vm_compute. repeat split. Qed.

Example test_setIn :
  let data := VObj {["user" := VObj {["name" := VStr "Jane"]}]} in
  let data' := VObj {[
    "user" := VObj {[
      "name" := VStr "Jane";
      "address" := VObj {[ "city" := VStr "NY" ]};
      "contacts" := VArr 1 {[
        "0" := VObj {[ "type" := VStr "email"; "value" := VStr "jane@example.com" ]} ]};
      "tags" := VArr 2 {[ "1" := VStr "b" ]} ]} ]} in
  andThen (andThen (andThen (setIn data "user.address.city" (VStr "NY"))
    (fun d => setIn d "user.contacts.0.type" (VStr "email")))
    (fun d => setIn d "user.contacts.0.value" (VStr "jane@example.com")))
    (fun d => setIn d "user.tags.1" (VStr "b")) = (data', None) /\
  getIn data' "user.address.city" = VStr "NY" /\
  getIn data' "user.contacts.0.type" = VStr "email" /\
  getIn data' "user.contacts.0.value" = VStr "jane@example.com" /\
  getIn data' "user.tags.1" = VStr "b".
Proof. vm_compute. repeat split. Qed.

Example test_deleteIn :
  let data := VObj {[
    "user" := VObj {[
      "name" := VStr "John";
      "address" := VObj {[ "city" := VStr "LA"; "zip" := VStr "90001" ]};
      "contacts" := VArr 1 {[
        "0" := VObj {[ "type" := VStr "email"; "value" := VStr "john@example.com" ]} ]} ]} ]} in
  let r1 := deleteIn data "user.address.city" in
  let r2 := deleteIn r1.1 "user.address.zip" in
  let r3 := deleteIn r2.1 "user.contacts.0.type" in
  r1.2 = Normal false /\
  getIn r1.1 "user.address.city" = VUndef /\
  getIn r2.1 "user.address" = VUndef /\
  getIn r3.1 "user.contacts.0.type" = VUndef.
Proof. vm_compute. repeat split. Qed.

(** The examples of the specification. *)
Example spec_examples :
  getIn (VObj {["user" := VObj {["tags" := VArr 2 {["0" := VStr "a"; "1" := VStr "b"]}]}]})
    "user.tags.1" = VStr "b" /\
  setIn (VObj {["user" := VObj {["name" := VStr "Jane"]}]}) "user.address.city" (VStr "NY")
  = (VObj {["user" := VObj {["name" := VStr "Jane";
                            "address" := VObj {["city" := VStr "NY"]}]}]}, None) /\
  deleteIn (VObj {["a" := VObj {["b" := VObj {["c" := VNum (JS.of_Z 1)]}]}]}) "a.b.c"
  = (VObj ∅, Normal true) /\
  setIn (VObj {["items" := VObj {["foo" := VNum (JS.of_Z 1)]}]}) "items.0.name" (VStr "x")
  = (VObj {["items" := VObj {["foo" := VNum (JS.of_Z 1)]}]}, Some ExpectedArray).
Proof. vm_compute. repeat split. Qed.

(** The data of the repository's tests of the hook, with the paths they
    include and exclude. *)
Example test_filterData :
  let values := VObj {[
    "profile" := VObj {[
      "name" := VStr "Alice";
      "address" := VObj {[ "city" := VStr "Kyiv" ]} ]} ]} in
  let flat := VObj {[
    "name" := VStr "Alice"; "email" := VStr "user@example.com";
    "password" := VStr "secret" ]} in
  filterData values (Some ["profile.address.city"]) None
  = Normal (VObj {["profile" := VObj {["address" := VObj {["city" := VStr "Kyiv"]}]}]}) /\
  filterData values None (Some ["profile.address.city"])
  = Normal (VObj {["profile" := VObj {["name" := VStr "Alice"]}]}) /\
  filterData flat None (Some ["password"])
  = Normal (VObj {["name" := VStr "Alice"; "email" := VStr "user@example.com"]}) /\
  filterData flat (Some ["name"]) None
  = Normal (VObj {["name" := VStr "Alice"]}) /\
  filterData flat None None = Normal flat /\
  filterData flat (Some []) (Some []) = Normal flat.
Proof. vm_compute. repeat split. Qed.

(** ** Basic facts *)

Lemma isIndex_numKey segment : isIndex segment = true -> numKey segment = segment.
Proof. unfold isIndex, numKey. intros H. by apply String.eqb_eq in H. Qed.

Lemma isIndex_length : isIndex "length" = false.
Proof. vm_compute. reflexivity. Qed.

Lemma isIndex_not_length segment : isIndex segment = true -> segment <> "length".
Proof. intros H ->. rewrite isIndex_length in H. discriminate. Qed.

Lemma splitPath_nonempty p : splitPath p <> [].
Proof. destruct p as [|c p]; simpl; [done|]. by repeat case_match. Qed.

Lemma getIn_loop_cons segment rest current :
  getIn_loop (segment :: rest) current =
  if nullish current then VUndef else getIn_loop rest (get_prop current segment).
Proof.
  simpl. destruct (isIndex segment) eqn:E; [|done].
  by rewrite (isIndex_numKey _ E).
Qed.

Lemma getIn_loop_undef segments : getIn_loop segments VUndef = VUndef.
Proof. by destruct segments. Qed.

Lemma getIn_loop_app pre rest current :
  getIn_loop (pre ++ rest) current = getIn_loop rest (getIn_loop pre current).
Proof.
  revert current. induction pre as [|s pre IH]; intros current; [done|].
  rewrite <- app_comm_cons, !getIn_loop_cons.
  destruct (nullish current); [by rewrite getIn_loop_undef|apply IH].
Qed.

Lemma setIn_loop_last segment current value :
  setIn_loop [segment] current value =
  if isIndex segment then
    if isArray current then set_prop current segment value else (current, None)
  else set_prop current segment value.
Proof.
  simpl. destruct (isIndex segment) eqn:E; [|done].
  by rewrite (isIndex_numKey _ E).
Qed.

Lemma setIn_loop_step segment next rest current value :
  setIn_loop (segment :: next :: rest) current value =
  if isIndex segment && negb (isArray current) then (current, Some ExpectedArray)
  else if negb (isIndex segment) && nullish current then (current, Some TypeError)
  else
    let '(node, e) := vivify current segment next in
    match e with
    | Some e => (node, Some e)
    | None =>
        let '(child, e) := setIn_loop (next :: rest) (get_prop node segment) value in
        (link node segment child, e)
    end.
Proof.
  unfold vivify.
  change (setIn_loop (segment :: next :: rest) current value) with
    (if isIndex segment then
        if negb (isArray current) then (current, Some ExpectedArray)
        else
          let '(arr, e) :=
            if negb (truthy (get_prop current (numKey segment)))
            then set_prop current (numKey segment) (fresh next)
            else (current, None) in
          match e with
          | Some e => (arr, Some e)
          | None =>
              let '(child, e) :=
                setIn_loop (next :: rest) (get_prop arr (numKey segment)) value in
              (link arr (numKey segment) child, e)
          end
      else
        if nullish current then (current, Some TypeError)
        else
          let '(obj, e) :=
            if negb (truthy (get_prop current segment))
            then set_prop current segment (fresh next)
            else (current, None) in
          match e with
          | Some e => (obj, Some e)
          | None =>
              let '(child, e) :=
                setIn_loop (next :: rest) (get_prop obj segment) value in
              (link obj segment child, e)
          end).
  destruct (isIndex segment) eqn:E; simpl.
  - rewrite (isIndex_numKey _ E). by destruct (isArray current).
  - by destruct (nullish current).
Qed.

(** *** Numbers of the model that are zero *)

Lemma ilog2_ratio_one p : JS.ilog2_ratio p 1 <= Z.log2 p.
Proof.
  unfold JS.ilog2_ratio. change (Z.log2 1) with 0.
  destruct (JS.ge_pow2 _ _ _); lia.
Qed.

Lemma round_half_even_ge num den : num / den <= JS.round_half_even num den.
Proof.
  unfold JS.round_half_even.
  destruct (2 * (num mod den) ?= den); [destruct (Z.even _)|..]; lia.
Qed.

Lemma round_ratio_pos neg p :
  0 < p -> match JS.round_ratio neg p 1 with
           | JS.Fin _ _ _ | JS.Inf _ => True
           | _ => False
           end.
Proof.
  intros Hp. unfold JS.round_ratio.
  destruct (Z.eqb_spec p 0) as [->|_]; [lia|].
  pose proof (ilog2_ratio_one p) as Hl.
  pose proof (Z.log2_nonneg p) as Hn.
  set (e := Z.max _ JS.emin).
  assert (He : e <= Z.log2 p) by (unfold e, JS.prec, JS.emin; lia).
  set (m := if 0 <=? e then _ else _).
  assert (Hm : 0 < m).
  { unfold m. destruct (Z.leb_spec 0 e) as [H0|H0].
    - eapply Z.lt_le_trans; [|apply round_half_even_ge].
      rewrite Z.mul_1_l. apply Z.div_str_pos. split; [by apply Z.pow_pos_nonneg|].
      etrans; [apply Z.pow_le_mono_r; [lia|apply He]|].
      by apply Z.log2_spec.
    - eapply Z.lt_le_trans; [|apply round_half_even_ge].
      rewrite Z.div_1_r. apply Z.mul_pos_pos; [done|].
      apply Z.pow_pos_nonneg; lia. }
  destruct (m =? 2 ^ JS.prec) eqn:E.
  - destruct (JS.emax <? e + 1); [done|]. by vm_compute.
  - destruct (JS.emax <? e); [done|]. destruct m; [lia|done|lia].
Qed.

Lemma of_Z_falsy n : truthy (VNum (JS.of_Z n)) = false -> n = 0.
Proof.
  unfold JS.of_Z. intros H.
  destruct (Z.ltb_spec n 0) as [Hn|Hn].
  - pose proof (round_ratio_pos true (- n) ltac:(lia)) as Hr.
    by destruct (JS.round_ratio true (- n) 1).
  - destruct (decide (n = 0)) as [|Hne]; [done|].
    pose proof (round_ratio_pos false n ltac:(lia)) as Hr.
    by destruct (JS.round_ratio false n 1).
Qed.

(** *** Property access *)

Lemma set_prop_kind current k x node e :
  set_prop current k x = (node, e) ->
  isArray node = isArray current /\ isMapping node = isMapping current /\
  isObjectType node = isObjectType current /\ nullish node = nullish current.
Proof.
  destruct current; simpl; intros H; simplify_eq; try done.
  repeat case_match; by simplify_eq.
Qed.

Lemma set_prop_error current k x node e :
  set_prop current k x = (node, Some e) -> e <> ExpectedArray /\ node = current.
Proof.
  destruct current; simpl; intros H; simplify_eq; try done.
  repeat case_match; by simplify_eq.
Qed.

Lemma get_set_prop current k x node :
  set_prop current k x = (node, None) ->
  k <> "length" \/ isMapping current = true ->
  get_prop node k = x.
Proof.
  destruct current; simpl; intros H Hk; simplify_eq; simpl.
  - by rewrite lookup_insert_eq.
  - destruct Hk as [Hk|]; [|done].
    apply String.eqb_neq in Hk. rewrite Hk in H.
    case_match; simplify_eq; simpl; by rewrite Hk, lookup_insert_eq.
Qed.

Lemma link_kind parent k child :
  isArray (link parent k child) = isArray parent /\
  isMapping (link parent k child) = isMapping parent /\
  isObjectType (link parent k child) = isObjectType parent /\
  nullish (link parent k child) = nullish parent.
Proof. destruct parent; simpl; try done. by case_match. Qed.

Lemma link_same parent k : link parent k (get_prop parent k) = parent.
Proof.
  destruct parent as [| | | | |props|len props]; simpl; try done.
  - f_equal. apply map_eq. intros j. rewrite lookup_alter.
    case_decide; [subst; by destruct (props !! j)|done].
  - case_match; [done|]. f_equal. apply map_eq. intros j. rewrite lookup_alter.
    case_decide; [subst; by destruct (props !! j)|done].
Qed.

Lemma get_link parent k child :
  isObjectType (get_prop parent k) = true ->
  get_prop (link parent k child) k = child.
Proof.
  destruct parent as [| | | | s |props|len props]; simpl; try done.
  - repeat case_match; done.
  - destruct (props !! k) eqn:E; [|done]. intros _.
    by rewrite lookup_alter_eq, E.
  - destruct (String.eqb k "length") eqn:Ek; [done|]. simpl. rewrite Ek.
    destruct (props !! k) eqn:E; [|done]. intros _.
    by rewrite lookup_alter_eq, E.
Qed.

(** A node that is not an object or an array is never changed by [setIn]. *)
Lemma setIn_loop_leaf segments current value :
  isObjectType current = false -> (setIn_loop segments current value).1 = current.
Proof.
  revert current. induction segments as [|s [|next rest] IH]; intros current Hc.
  - done.
  - rewrite setIn_loop_last. destruct current; try done; by repeat case_match.
  - rewrite setIn_loop_step.
    destruct (isIndex s && negb (isArray current)); [done|].
    destruct (negb (isIndex s) && nullish current); [done|].
    destruct (vivify current s next) as [node e] eqn:Ev.
    assert (node = current) as Hn.
    { unfold vivify in Ev. destruct (negb (truthy _)); [|by simplify_eq].
      destruct current; try done; simpl in Ev; by simplify_eq. }
    subst node.
    destruct e; [done|].
    specialize (IH (get_prop current s)).
    destruct (setIn_loop (next :: rest) (get_prop current s) value) as [child e].
    simpl in *. rewrite IH; [apply link_same|].
    destruct current; try done. simpl. by repeat case_match.
Qed.

(** [setIn] leaves the node it is called on of the kind it was. *)
Lemma setIn_loop_kind segments current value :
  isArray (setIn_loop segments current value).1 = isArray current /\
  isMapping (setIn_loop segments current value).1 = isMapping current /\
  isObjectType (setIn_loop segments current value).1 = isObjectType current /\
  nullish (setIn_loop segments current value).1 = nullish current.
Proof.
  destruct segments as [|s [|next rest]]; [done|..].
  - rewrite setIn_loop_last.
    destruct (isIndex s); [destruct (isArray current) eqn:Ea|]; try done.
    all: destruct (set_prop current s value) as [n e] eqn:E; simpl;
      destruct (set_prop_kind _ _ _ _ _ E) as (? & ? & ? & ?);
      repeat split; congruence.
  - rewrite setIn_loop_step.
    destruct (isIndex s && negb (isArray current)); [done|].
    destruct (negb (isIndex s) && nullish current); [done|].
    destruct (vivify current s next) as [node e] eqn:Ev.
    assert (isArray node = isArray current /\ isMapping node = isMapping current /\
            isObjectType node = isObjectType current /\ nullish node = nullish current)
      as (Ha & Hm & Ho & Hn).
    { unfold vivify in Ev. destruct (negb (truthy _)); [|by simplify_eq].
      exact (set_prop_kind _ _ _ _ _ Ev). }
    destruct e; [done|].
    destruct (setIn_loop (next :: rest) (get_prop node s) value) as [child e].
    simpl. destruct (link_kind node s child) as (-> & -> & -> & ->). done.
Qed.

(** What the child under [segment] is once a non-terminal step has made sure
    it is there: the step left the node alone and the child is present, or
    the child is the fresh container. *)
Lemma vivify_cases current segment next node :
  vivify current segment next = (node, None) ->
  (node = current /\ nullish (get_prop current segment) = false) \/
  (get_prop node segment = fresh next /\ isObjectType current = true).
Proof.
  unfold vivify. destruct (truthy (get_prop current segment)) eqn:Et; simpl.
  - intros [= <-]. left. split; [done|].
    by destruct (get_prop current segment).
  - destruct current as [| | | | |props|len props]; simpl; try done.
    + intros ?; simplify_eq. right. simpl. by rewrite lookup_insert_eq.
    + simpl in Et. destruct (String.eqb segment "length") eqn:Ek.
      * apply of_Z_falsy in Et as ->. intros H. left. split; [|done].
        destruct (valid_length _) as [n|] eqn:En; [|done].
        assert (n = 0) as ->.
        { unfold fresh in En. destruct (isIndex next); vm_compute in En;
            by simplify_eq. }
        simpl in H. by simplify_eq.
      * intros H. right. split; [|done].
        case_match; simplify_eq; simpl; by rewrite Ek, lookup_insert_eq.
Qed.

(** ** What the specification states about setIn *)

Section setIn.

Variable value : val.

(** From a container it has just created, the loop runs to its end without
    raising: each container is created for the segment that follows. *)
Lemma setIn_loop_fresh next rest :
  exists node,
    setIn_loop (next :: rest) (fresh next) value = (node, None) /\
    isArray node = isIndex next /\ isObjectType node = true.
Proof.
  revert next. induction rest as [|next' rest IH]; intros next.
  - rewrite setIn_loop_last. unfold fresh.
    destruct (isIndex next) eqn:E; simpl.
    + apply isIndex_not_length, String.eqb_neq in E. rewrite E.
      case_match; eauto.
    + eauto.
  - rewrite setIn_loop_step.
    assert (isIndex next && negb (isArray (fresh next)) = false) as ->.
    { unfold fresh. by destruct (isIndex next). }
    assert (negb (isIndex next) && nullish (fresh next) = false) as ->.
    { unfold fresh. by destruct (isIndex next). }
    destruct (vivify (fresh next) next next') as [node e] eqn:Ev.
    assert (e = None /\ get_prop node next = fresh next' /\
            isArray node = isIndex next /\ isObjectType node = true)
      as (-> & Hg & Ha & Ho).
    { unfold vivify, fresh in Ev. destruct (isIndex next) eqn:E; simpl in Ev.
      - apply isIndex_not_length, String.eqb_neq in E. rewrite E in Ev.
        rewrite lookup_empty in Ev. simpl in Ev.
        case_match; simplify_eq; simpl; by rewrite E, lookup_insert_eq.
      - rewrite lookup_empty in Ev. simpl in Ev. simplify_eq. simpl.
        by rewrite lookup_insert_eq. }
    rewrite Hg. destruct (IH next') as (child & -> & _ & _).
    eexists. split; [done|]. by destruct (link_kind node next child) as (-> & _ & -> & _).
Qed.

(** When [setIn] raises its own error, the root is as it was, and the walk
    stood at a non-terminal index segment before a node that is no array. *)
Lemma setIn_loop_conflict segments current node :
  setIn_loop segments current value = (node, Some ExpectedArray) ->
  node = current /\
  exists pre segment rest,
    segments = pre ++ segment :: rest /\ rest <> [] /\
    isIndex segment = true /\
    isArray (getIn_loop pre current) = false /\
    (nullish current = false -> nullish (getIn_loop pre current) = false).
Proof.
  revert current node.
  induction segments as [|s [|next rest] IH]; intros current node.
  - done.
  - rewrite setIn_loop_last. intros H.
    assert (set_prop current s value = (node, Some ExpectedArray)) as He.
    { destruct (isIndex s); [destruct (isArray current)|]; done. }
    by apply set_prop_error in He as [? _].
  - rewrite setIn_loop_step.
    destruct (isIndex s && negb (isArray current)) eqn:E1.
    { intros [= <-]. split; [done|]. exists [], s, (next :: rest).
      apply andb_prop in E1 as [? ?%negb_true_iff]. by repeat split. }
    destruct (negb (isIndex s) && nullish current) eqn:E2; [done|].
    assert (nullish current = false) as Hnn.
    { destruct (isIndex s); [|done]. by destruct current. }
    destruct (vivify current s next) as [node1 e] eqn:Ev.
    destruct e as [e|].
    { intros [= <- ->]. unfold vivify in Ev.
      destruct (negb (truthy _)); [|done].
      by apply set_prop_error in Ev as [? _]. }
    destruct (setIn_loop (next :: rest) (get_prop node1 s) value)
      as [child e] eqn:Er.
    intros [= <- ->].
    apply vivify_cases in Ev as [[-> Hc]|[Hf _]].
    + apply IH in Er as (-> & pre & segment & rest' & Hs & Hr & Hi & Ha & Hn).
      split; [apply link_same|].
      exists (s :: pre), segment, rest'. rewrite Hs.
      rewrite getIn_loop_cons, Hnn. by repeat split; auto.
    + rewrite Hf in Er. destruct (setIn_loop_fresh next rest) as (? & Hok & _).
      rewrite Hok in Er. done.
Qed.

Lemma getIn_loop_fresh segments next :
  getIn_loop (next :: segments) (fresh next) = VUndef.
Proof.
  rewrite getIn_loop_cons. unfold fresh.
  destruct (isIndex next) eqn:E; simpl.
  - apply isIndex_not_length, String.eqb_neq in E. rewrite E, lookup_empty.
    apply getIn_loop_undef.
  - rewrite lookup_empty. apply getIn_loop_undef.
Qed.


End setIn.

Lemma splitPath_parent_last path :
  splitPath path = parentSegments path ++ [lastSegment path].
Proof. apply app_removelast_last, splitPath_nonempty. Qed.

(** A non-terminal step before a child that is there but falsy: the child is
    replaced by the fresh container, as if nothing had been there. *)
Lemma vivify_falsy props segment next child :
  props !! segment = Some child -> truthy child = false ->
  vivify (VObj props) segment next = (VObj (<[segment := fresh next]> props), None) /\
  vivify (VObj (delete segment props)) segment next =
    (VObj (<[segment := fresh next]> props), None) /\
  forall len, isIndex segment = true ->
    vivify (VArr len props) segment next = vivify (VArr len (delete segment props)) segment next /\
    exists len', vivify (VArr len props) segment next =
                 (VArr len' (<[segment := fresh next]> props), None).
Proof.
  intros Hc Ht. unfold vivify. simpl.
  rewrite Hc, lookup_delete_eq. simpl. rewrite Ht. simpl.
  rewrite insert_delete_eq. repeat split.
  all: apply isIndex_not_length, String.eqb_neq in H; rewrite H, ?Hc; simpl.
  all: rewrite ?lookup_delete_eq, ?Ht; simpl; rewrite ?insert_delete_eq.
  - done.
  - case_match; eauto.
Qed.

(** What [getIn] reads after [setIn] has returned, when the last container
    takes the write. *)
Lemma setIn_loop_reads pre last current value node :
  setIn_loop (pre ++ [last]) current value = (node, None) ->
  takesWrite last (getIn_loop pre node) = true ->
  getIn_loop (pre ++ [last]) node = value.
Proof.
  revert current node. induction pre as [|s pre IH]; intros current node.
  - simpl app. rewrite setIn_loop_last, getIn_loop_cons. unfold takesWrite.
    simpl getIn_loop. intros Hs Hk.
    destruct (isIndex last) eqn:E.
    + destruct (isArray current) eqn:Ea.
      * destruct (set_prop_kind _ _ _ _ _ Hs) as (_ & _ & _ & ->).
        destruct current; try done. simpl.
        eapply get_set_prop; [done|]. left. by apply isIndex_not_length.
      * simplify_eq. congruence.
    + destruct (set_prop_kind _ _ _ _ _ Hs) as (Ha & _ & Ho & ->).
      rewrite Ha, Ho in Hk. apply andb_prop in Hk as [Hc Hl].
      destruct current as [| | | | |props|len props]; try done; simpl.
      * eapply get_set_prop; [done|]. by right.
      * eapply get_set_prop; [done|]. left.
        simpl in Hl. by apply negb_true_iff, String.eqb_neq in Hl.
  - rewrite <- !app_comm_cons.
    destruct (pre ++ [last]) as [|next rest] eqn:Hl; [by destruct pre|].
    rewrite setIn_loop_step, !(getIn_loop_cons s).
    destruct (isIndex s && negb (isArray current)) eqn:E1; [done|].
    destruct (negb (isIndex s) && nullish current) eqn:E2; [done|].
    assert (nullish current = false) as Hnn.
    { destruct (isIndex s); [|done]. by destruct current. }
    destruct (vivify current s next) as [node1 e] eqn:Ev.
    destruct e as [e|]; [done|].
    destruct (setIn_loop (next :: rest) (get_prop node1 s) value)
      as [child e] eqn:Er.
    intros [= <- ->].
    assert (nullish node1 = false) as Hn1.
    { unfold vivify in Ev. destruct (negb (truthy _)); [|by simplify_eq].
      destruct (set_prop_kind _ _ _ _ _ Ev) as (_ & _ & _ & ->). done. }
    destruct (link_kind node1 s child) as (_ & _ & _ & ->). rewrite Hn1.
    assert (get_prop (link node1 s child) s = child) as ->.
    { destruct (isObjectType (get_prop node1 s)) eqn:Eo; [by apply get_link|].
      pose proof (setIn_loop_leaf (next :: rest) _ value Eo) as Hleaf.
      rewrite Er in Hleaf. simpl in Hleaf. subst child.
      by rewrite link_same. }
    rewrite <- Hl in *. eauto.
Qed.

(** A non-terminal step in a sequence before a child that is there but
    falsy, under any segment but [length]. *)
Lemma vivify_falsy_sequence len props segment next child :
  props !! segment = Some child -> truthy child = false ->
  segment <> "length" ->
  vivify (VArr len props) segment next
  = vivify (VArr len (delete segment props)) segment next /\
  exists len',
    vivify (VArr len props) segment next
    = (VArr len' (<[segment := fresh next]> props), None).
Proof.
  intros Hc Ht Hs%String.eqb_neq. unfold vivify. simpl.
  rewrite Hs, Hc, lookup_delete_eq. simpl. rewrite Ht. simpl.
  rewrite insert_delete_eq. split; [done|]. case_match; eauto.
Qed.

(** C1, as stated, fails where [setIn] raises: on the structural conflict of
    the specification's own example the root is left as it was, and [getIn]
    then reads [undefined] at the path.  It fails, too, where the value is
    assigned to the length of a sequence, which becomes the number the
    value converts to, and where the write is lost (C2). *)
Lemma setIn_getIn_counterexample :
  let root := VObj {["items" := VObj {["foo" := VNum (JS.of_Z 1)]}]} in
  let list := VObj {["a" := VArr 0 ∅]} in
  let plain := VObj {["a" := VObj ∅]} in
  ((setIn root "items.0.name" (VStr "x")).2 = Some ExpectedArray /\
   getIn (setIn root "items.0.name" (VStr "x")).1 "items.0.name" <> VStr "x") /\
  ((setIn list "a.length" (VStr "3")).2 = None /\
   getIn (setIn list "a.length" (VStr "3")).1 "a.length" = VNum (JS.of_Z 3)) /\
  ((setIn plain "a.0" (VStr "x")).2 = None /\
   getIn (setIn plain "a.0" (VStr "x")).1 "a.0" = VUndef).
Proof. vm_compute. repeat split; discriminate. Qed.

(** C1, amended: for every root, every path without the name of an
    inherited property and every value, when [setIn] returns without raising
    and the container that the path prefix addresses after the call takes
    the write (it is a sequence if the last segment is an index segment; with
    a key segment it is any object, the key not being the [length] of a
    sequence), [getIn] at the same path yields the value. *)
Theorem setIn_getIn_roundtrip root path value root' :
  ownPath path = true ->
  setIn root path value = (root', None) ->
  takesWrite (lastSegment path) (getIn_loop (parentSegments path) root') = true ->
  getIn root' path = value.
Proof.
  intros _. unfold setIn, getIn. rewrite (splitPath_parent_last path).
  apply setIn_loop_reads.
Qed.

Lemma setIn_getIn_roundtrip_witness :
  let root := VObj {["user" := VObj {["name" := VStr "Jane"]};
                    "list" := VArr 0 ∅]} in
  getIn (setIn root "user.address.city" (VStr "NY")).1 "user.address.city"
  = VStr "NY" /\
  getIn (setIn root "list.foo" (VStr "x")).1 "list.foo" = VStr "x".
Proof.
  intros root. split.
  - apply (setIn_getIn_roundtrip root "user.address.city" (VStr "NY")).
    + vm_compute; reflexivity.
    + vm_compute; reflexivity.
    + vm_compute; reflexivity.
  - apply (setIn_getIn_roundtrip root "list.foo" (VStr "x")).
    + vm_compute; reflexivity.
    + vm_compute; reflexivity.
    + vm_compute; reflexivity.
Defined.

(** C2 at a failing input: with a mapping under [a], [setIn] at [a.0] returns
    without raising and leaves the root as it was.  The fresh array the value
    is assigned into is held by the local variable only; under [a] there is
    still the mapping, and [getIn] reads [undefined] at [a.0]. *)
Theorem setIn_terminal_index_write_lost :
  let root := VObj {["a" := VObj ∅]} in
  setIn root "a.0" (VStr "x") = (root, None) /\
  getIn root "a" = VObj ∅ /\
  getIn root "a.0" = VUndef.
Proof. repeat split; vm_compute; reflexivity. Qed.

(** C6, as stated, fails on the errors of the language: [setIn] raises
    where it is to write a property of a primitive value (a TypeError) and
    where it is to replace the zero length of a sequence by a mapping (a
    RangeError), neither at an index segment. *)
Lemma setIn_errors_counterexample :
  setIn (VObj {["a" := VNum (JS.of_Z 5)]}) "a.b" (VStr "x")
  = (VObj {["a" := VNum (JS.of_Z 5)]}, Some TypeError) /\
  setIn (VObj {["a" := VArr 0 ∅]}) "a.length.x" (VStr "x")
  = (VObj {["a" := VArr 0 ∅]}, Some RangeError) /\
  isIndex "b" = false /\ isIndex "length" = false.
Proof. vm_compute. repeat split. Qed.

(** C6, amended: on a path without the name of an inherited property,
    [setIn] raises its structural-conflict error only at a non-terminal
    index segment that the walk reaches before a node that is present and
    not a sequence, and at such a segment it always raises (a mapping is
    never turned into a sequence during the walk).  When it raises this
    error, no later segment has been applied and nothing is undone: the root
    is exactly as the walk found it, since the walk creates no container
    before a conflict.  (A present node is one that is not null or
    undefined; the root is assumed present.)  The other errors [setIn] ends
    with are raised by the language, not by a check of [setIn]. *)
Theorem setIn_structural_conflict :
  (forall root path value root',
     ownPath path = true ->
     setIn root path value = (root', Some ExpectedArray) ->
     root' = root /\
     exists pre segment rest,
       splitPath path = pre ++ segment :: rest /\ rest <> [] /\
       isIndex segment = true /\
       isArray (getIn_loop pre root) = false /\
       (nullish root = false -> nullish (getIn_loop pre root) = false)) /\
  (forall current segment next rest value,
     isIndex segment = true -> isArray current = false ->
     setIn_loop (segment :: next :: rest) current value =
     (current, Some ExpectedArray)).
Proof.
  split.
  - intros root path value root' _. apply setIn_loop_conflict.
  - intros current segment next rest value Hi Ha.
    by rewrite setIn_loop_step, Hi, Ha.
Qed.

Lemma setIn_structural_conflict_witness :
  let root := VObj {["items" := VObj {["foo" := VNum (JS.of_Z 1)]}]} in
  setIn root "items.0.name" (VStr "x") = (root, Some ExpectedArray) /\
  exists pre segment rest,
    splitPath "items.0.name" = pre ++ segment :: rest /\ rest <> [] /\
    isIndex segment = true /\
    isArray (getIn_loop pre root) = false /\
    (nullish root = false -> nullish (getIn_loop pre root) = false).
Proof.
  split; [vm_compute; reflexivity|].
  refine (proj2 (proj1 setIn_structural_conflict
                   (VObj {["items" := VObj {["foo" := VNum (JS.of_Z 1)]}]})
                   "items.0.name" (VStr "x") _ _ _)).
  - vm_compute; reflexivity.
  - vm_compute; reflexivity.
Defined.



(** C10, as stated, fails on the length of a sequence, which is a child
    that is there and falsy when it is 0: [setIn] does not replace it.
    Before a key segment it raises the RangeError of assigning a mapping to
    the length, and before an index segment it assigns the empty sequence,
    which leaves the length 0, and goes on from the number. *)
Lemma setIn_falsy_length_counterexample :
  let root := VObj {["a" := VArr 0 ∅]} in
  getIn root "a.length" = VNum (JS.of_Z 0) /\
  truthy (getIn root "a.length") = false /\
  setIn root "a.length.x" (VStr "v") = (root, Some RangeError) /\
  setIn root "a.length.0" (VStr "v") = (root, None).
Proof. vm_compute. repeat split. Qed.

(** C10, amended: at a non-terminal segment, on segments without the name
    of an inherited property, a child that is there but falsy (the number 0,
    the empty string, [false]) is treated as an absent one: the call does
    what it does on the container without that child, and replaces the child
    by a container created for the next segment, so the value that was
    stored is gone.  This holds in a mapping under a key segment and in a
    sequence under an index segment or under a key segment other than
    [length]. *)
Theorem setIn_replaces_falsy_child props segment next rest value child :
  ownSegments (segment :: next :: rest) = true ->
  props !! segment = Some child ->
  truthy child = false ->
  (isIndex segment = false ->
   setIn_loop (segment :: next :: rest) (VObj props) value =
   setIn_loop (segment :: next :: rest) (VObj (delete segment props)) value /\
   exists node,
     setIn_loop (segment :: next :: rest) (VObj props) value = (node, None) /\
     isArray (get_prop node segment) = isIndex next /\
     isObjectType (get_prop node segment) = true) /\
  (forall len, segment <> "length" ->
   setIn_loop (segment :: next :: rest) (VArr len props) value =
   setIn_loop (segment :: next :: rest) (VArr len (delete segment props)) value /\
   exists node,
     setIn_loop (segment :: next :: rest) (VArr len props) value = (node, None) /\
     isArray (get_prop node segment) = isIndex next /\
     isObjectType (get_prop node segment) = true).
Proof.
  intros _ Hc Ht.
  destruct (vivify_falsy props segment next child Hc Ht) as (Hv1 & Hv2 & _).
  assert (forall node, isObjectType node = true ->
            get_prop node segment = fresh next ->
            exists node',
              (let '(child, e) := setIn_loop (next :: rest) (get_prop node segment) value in
               (link node segment child, e)) = (node', None) /\
              isArray (get_prop node' segment) = isIndex next /\
              isObjectType (get_prop node' segment) = true) as Hrest.
  { intros node Hn Hg. rewrite Hg.
    destruct (setIn_loop_fresh value next rest) as (c & -> & Ha & Ho).
    eexists. split; [done|]. rewrite get_link; [done|].
    rewrite Hg. unfold fresh. by destruct (isIndex next). }
  split.
  - intros Hi. rewrite !setIn_loop_step, Hi. simpl. rewrite Hv1, Hv2.
    split; [done|]. apply Hrest; [done|]. simpl. by rewrite lookup_insert_eq.
  - intros len Hs.
    destruct (vivify_falsy_sequence len props segment next child Hc Ht Hs)
      as (Hv3 & len' & Hv4).
    rewrite !setIn_loop_step.
    change (isArray (VArr len props)) with true.
    change (isArray (VArr len (delete segment props))) with true.
    change (nullish (VArr len props)) with false.
    change (nullish (VArr len (delete segment props))) with false.
    cbn [negb]. rewrite !andb_false_r, <- Hv3, Hv4.
    split; [done|]. apply Hrest; [done|]. simpl.
    apply String.eqb_neq in Hs. by rewrite Hs, lookup_insert_eq.
Qed.

Lemma setIn_replaces_falsy_child_witness :
  let props : gmap string val := {["count" := VNum (JS.Zero false)]} in
  (setIn_loop ["count"; "x"] (VObj props) (VStr "v") =
   setIn_loop ["count"; "x"] (VObj (delete "count" props)) (VStr "v") /\
   exists node,
     setIn_loop ["count"; "x"] (VObj props) (VStr "v") = (node, None) /\
     isArray (get_prop node "count") = isIndex "x" /\
     isObjectType (get_prop node "count") = true) /\
  (setIn_loop ["count"; "x"] (VArr 0 props) (VStr "v") =
   setIn_loop ["count"; "x"] (VArr 0 (delete "count" props)) (VStr "v") /\
   exists node,
     setIn_loop ["count"; "x"] (VArr 0 props) (VStr "v") = (node, None) /\
     isArray (get_prop node "count") = isIndex "x" /\
     isObjectType (get_prop node "count") = true).
Proof.
  intros props.
  destruct (setIn_replaces_falsy_child props "count" "x" [] (VStr "v")
              (VNum (JS.Zero false))) as (Hobj & Harr).
  - vm_compute; reflexivity.
  - reflexivity.
  - reflexivity.
  - split.
    + apply Hobj. vm_compute; reflexivity.
    + apply (Harr 0). discriminate.
Defined.

(** ** deleteIn *)

Lemma nextNode_hasNext segment node :
  nextNode segment node = if hasNext segment node then get_prop node segment else VUndef.
Proof.
  unfold nextNode, hasNext. destruct (isIndex segment) eqn:E; [|done].
  by rewrite (isIndex_numKey _ E).
Qed.

Lemma deleteNode_null segment rest node :
  nullish node = true -> deleteNode segment rest node = (node, Normal true).
Proof. intros H. destruct rest; simpl; by rewrite H. Qed.

Lemma deleteNode_last segment node :
  nullish node = false ->
  deleteNode segment [] node =
  let '(node', e) :=
    if isObjectType node then delete_prop node segment else (node, None) in
  match e with
  | Some e => (node', Throw e)
  | None => (node', Normal (reportEmpty node'))
  end.
Proof.
  intros Hn. simpl. rewrite Hn.
  destruct (isIndex segment) eqn:E; simpl; [|done].
  rewrite (isIndex_numKey _ E). by destruct node.
Qed.

Lemma deleteNode_step segment segment' rest node :
  nullish node = false ->
  deleteNode segment (segment' :: rest) node =
  let '(next', r) := deleteNode segment' rest (nextNode segment node) in
  let node1 := if hasNext segment node then link node segment next' else node in
  match r with
  | Throw e => (node1, Throw e)
  | Normal empty =>
      let '(node2, e) := if empty then prune node1 segment else (node1, None) in
      match e with
      | Some e => (node2, Throw e)
      | None => (node2, Normal (reportEmpty node2))
      end
  end.
Proof.
  intros Hn.
  change (deleteNode segment (segment' :: rest) node) with
    (if nullish node then (node, Normal true) else
      let key :=
        if isIndex segment then
          if isArray node then Some (numKey segment) else None
        else if isObjectType node then Some segment else None in
      let next := match key with Some k => get_prop node k | None => VUndef end in
      let '(next', r) := deleteNode segment' rest next in
      let node1 := match key with Some k => link node k next' | None => node end in
      match r with
      | Throw e => (node1, Throw e)
      | Normal empty =>
          let '(node2, e) :=
            if empty then
              if isIndex segment && isArray node1 then
                if isEmptyObject (get_prop node1 (numKey segment))
                then delete_prop node1 (numKey segment) else (node1, None)
              else if isObjectType node1 then
                if isEmptyObject (get_prop node1 segment)
                then delete_prop node1 segment else (node1, None)
              else (node1, None)
            else (node1, None) in
          match e with
          | Some e => (node2, Throw e)
          | None => (node2, Normal (reportEmpty node2))
          end
      end).
  rewrite Hn. unfold nextNode, hasNext, prune.
  destruct (isIndex segment) eqn:E; simpl.
  - rewrite (isIndex_numKey _ E).
    destruct (isArray node) eqn:Ea.
    + destruct (deleteNode segment' rest (get_prop node segment)) as [next' r].
      destruct r as [[]|]; try done.
      destruct (link_kind node segment next') as (-> & _ & -> & _).
      rewrite Ea. by destruct node.
    + destruct (deleteNode segment' rest VUndef) as [next' r].
      destruct r as [[]|]; try done. by rewrite Ea.
  - destruct (isObjectType node); by destruct (deleteNode segment' rest _) as [? [[]|]].
Qed.

Lemma delete_prop_kind node k node' e :
  delete_prop node k = (node', e) ->
  isArray node' = isArray node /\ isMapping node' = isMapping node /\
  isObjectType node' = isObjectType node /\ nullish node' = nullish node.
Proof.
  destruct node; simpl; intros H; simplify_eq; try done.
  case_match; by simplify_eq.
Qed.

Lemma delete_prop_error node k node' e :
  delete_prop node k = (node', Some e) ->
  node' = node /\ e = TypeError /\ isArray node = true.
Proof.
  destruct node; simpl; intros H; simplify_eq.
  case_match; by simplify_eq.
Qed.

Lemma delete_prop_get node k node' :
  delete_prop node k = (node', None) ->
  isObjectType node = true -> get_prop node' k = VUndef.
Proof.
  destruct node; simpl; intros H Ho; simplify_eq; simpl.
  - by rewrite lookup_delete_eq.
  - destruct (String.eqb k "length") eqn:Ek; simplify_eq. simpl.
    by rewrite Ek, lookup_delete_eq.
Qed.

Lemma delete_prop_idem node k node' e :
  delete_prop node k = (node', e) -> delete_prop node' k = (node', e).
Proof.
  destruct node; simpl; intros H; simplify_eq; try done.
  - simpl. by rewrite delete_delete_eq.
  - destruct (String.eqb k "length") eqn:Ek; simplify_eq; simpl; rewrite Ek; [done|].
    by rewrite delete_delete_eq.
Qed.

Lemma get_prop_object_nonempty node k :
  isObjectType (get_prop node k) = true -> isEmptyObject node = false.
Proof.
  destruct node as [| | | | |props|len props]; simpl; try done.
  destruct (props !! k) eqn:E; [|done]. intros _.
  apply Nat.eqb_neq. intros Hs. apply map_size_empty_inv in Hs. subst.
  by rewrite lookup_empty in E.
Qed.

(** The pruning step never raises, and leaves no empty mapping under the
    segment: it changes nothing, or removes the empty mapping that was
    there. *)
Lemma prune_spec node segment :
  exists node',
    prune node segment = (node', None) /\
    isObjectType node' = isObjectType node /\ isArray node' = isArray node /\
    nullish node' = nullish node /\
    isEmptyObject (get_prop node' segment) = false /\
    (node' = node \/
     (get_prop node' segment = VUndef /\
      isEmptyObject (get_prop node segment) = true)).
Proof.
  unfold prune. destruct (isObjectType node) eqn:Ho.
  - destruct (isEmptyObject (get_prop node segment)) eqn:Ee; [|by eauto 10].
    destruct (delete_prop node segment) as [node' e] eqn:Ed.
    destruct e as [e|].
    { destruct node; try done. simpl in Ee, Ed.
      destruct (String.eqb segment "length"); done. }
    exists node'. destruct (delete_prop_kind _ _ _ _ Ed) as (-> & _ & -> & ->).
    rewrite (delete_prop_get _ _ _ Ed Ho). rewrite Ho. by auto 10.
  - exists node. repeat split; auto.
    destruct node; try done. simpl. by repeat case_match.
Qed.

(** What [deleteNode] returns tells whether the node is absent or an empty
    mapping; the only error is the one of deleting the [length] of an
    array, which leaves a node that is not empty. *)
Lemma deleteNode_result segment rest node node' r :
  deleteNode segment rest node = (node', r) ->
  isArray node' = isArray node /\ isObjectType node' = isObjectType node /\
  nullish node' = nullish node /\
  (isObjectType node = false -> node' = node) /\
  match r with
  | Normal b => b = nullish node' || isEmptyObject node'
  | Throw e =>
      e = TypeError /\ isEmptyObject node' = false /\ isObjectType node' = true
  end.
Proof.
  revert segment node node' r.
  induction rest as [|segment' rest IH]; intros segment node node' r;
    (destruct (nullish node) eqn:Hn;
     [rewrite deleteNode_null by done; intros [= <- <-]; by rewrite Hn|]).
  - rewrite deleteNode_last by done.
    destruct (isObjectType node) eqn:Ho.
    + destruct (delete_prop node segment) as [n e] eqn:Ed.
      destruct (delete_prop_kind _ _ _ _ Ed) as (Ha & _ & Ho' & Hn').
      destruct e as [e|]; intros [= <- <-].
      * apply delete_prop_error in Ed as (-> & -> & Ha').
        repeat split; auto; by destruct node.
      * rewrite Ha, Ho', Hn', Ho, Hn. repeat split; auto; first [done|by destruct n].
    + intros [= <- <-]. rewrite Hn. repeat split; auto; by destruct node.
  - rewrite deleteNode_step by done.
    destruct (deleteNode segment' rest (nextNode segment node)) as [next' r'] eqn:Er.
    apply IH in Er as (Ha' & Ho' & Hn' & Hl' & Hr'). cbv zeta.
    set (node1 := if hasNext segment node then link node segment next' else node).
    assert (isArray node1 = isArray node /\ isObjectType node1 = isObjectType node /\
            nullish node1 = nullish node /\
            (isObjectType node = false -> node1 = node)) as (Ha1 & Ho1 & Hn1 & Hl1).
    { unfold node1. destruct (hasNext segment node) eqn:Eh; [|done].
      destruct (link_kind node segment next') as (-> & _ & -> & ->).
      repeat split. intros Ho. by destruct node. }
    destruct r' as [empty|e].
    + destruct (prune_spec node1 segment) as (node2 & Hp & Ho2 & Ha2 & Hn2 & _).
      assert ((if empty then prune node1 segment else (node1, None)) =
              (if empty then node2 else node1, None)) as ->
        by (by destruct empty).
      intros [= <- <-].
      assert (forall n, isArray n = isArray node1 -> isObjectType n = isObjectType node1 ->
                nullish n = nullish node1 ->
                (isObjectType node = false -> n = node) ->
                isArray n = isArray node /\ isObjectType n = isObjectType node /\
                nullish n = false /\ (isObjectType node = false -> n = node) /\
                reportEmpty n = nullish n || isEmptyObject n) as Hfin.
      { intros n Ha Ho Hnn Hl.
        assert (nullish n = false) as Hnf by congruence.
        repeat split; [congruence|congruence|done|done|by destruct n]. }
      destruct empty; apply Hfin; auto.
      intros Ho. unfold prune in Hp. rewrite Ho1, Ho in Hp.
      injection Hp as <-. by apply Hl1.
    + intros [= <- <-]. destruct Hr' as (-> & Hne & Hot).
      split; [done|]. split; [done|]. split; [congruence|].
      split; [done|]. split; [done|].
      rewrite nextNode_hasNext in Ho'.
      destruct (hasNext segment node) eqn:Eh; [|by rewrite Hot in Ho'].
      split.
      * apply (get_prop_object_nonempty _ segment).
        unfold node1. rewrite get_link; congruence.
      * rewrite Ho1. unfold hasNext in Eh. destruct (isIndex segment); [|done].
        by destruct node.
Qed.

Lemma hasNext_kind segment node node' :
  isArray node' = isArray node -> isObjectType node' = isObjectType node ->
  hasNext segment node' = hasNext segment node.
Proof. unfold hasNext. by intros -> ->. Qed.

(** After the recursive call, the node holds under the segment what the call
    has left. *)
Lemma nextNode_link segment node next' :
  isObjectType next' = isObjectType (nextNode segment node) ->
  (isObjectType (nextNode segment node) = false -> next' = nextNode segment node) ->
  let node1 := if hasNext segment node then link node segment next' else node in
  nextNode segment node1 = next' /\
  (if hasNext segment node1 then link node1 segment next' else node1) = node1.
Proof.
  intros Ho Hl node1.
  assert (hasNext segment node1 = hasNext segment node) as Hh.
  { unfold node1. destruct (hasNext segment node) eqn:E; [|done].
    destruct (link_kind node segment next') as (? & _ & ? & _).
    rewrite <- E. by apply hasNext_kind. }
  rewrite nextNode_hasNext in Ho, Hl. rewrite nextNode_hasNext, Hh.
  unfold node1. destruct (hasNext segment node) eqn:E.
  - assert (get_prop (link node segment next') segment = next') as Hg.
    { destruct (isObjectType (get_prop node segment)) eqn:Eo; [by apply get_link|].
      rewrite Hl by done. by rewrite link_same. }
    split; [done|]. rewrite <- Hg at 2. apply link_same.
  - split; [|done]. symmetry. by apply Hl.
Qed.

(** A second call of [deleteNode] on what the first has left changes nothing
    and returns what the first returned. *)
Lemma deleteNode_idem segment rest node node' r :
  deleteNode segment rest node = (node', r) ->
  deleteNode segment rest node' = (node', r).
Proof.
  revert segment node node' r.
  induction rest as [|segment' rest IH]; intros segment node node' r;
    (destruct (nullish node) eqn:Hn;
     [rewrite deleteNode_null by done; intros [= <- <-];
      by rewrite deleteNode_null|]).
  - rewrite deleteNode_last by done.
    destruct (isObjectType node) eqn:Ho.
    + destruct (delete_prop node segment) as [n e] eqn:Ed.
      destruct (delete_prop_kind _ _ _ _ Ed) as (_ & _ & Ho' & Hn').
      apply delete_prop_idem in Ed.
      assert (deleteNode segment [] n =
              match e with
              | Some e => (n, Throw e)
              | None => (n, Normal (reportEmpty n))
              end) as Hd.
      { rewrite deleteNode_last by congruence. by rewrite Ho', Ho, Ed. }
      destruct e; intros [= <- <-]; done.
    + intros [= <- <-]. rewrite deleteNode_last by done. by rewrite Ho.
  - rewrite deleteNode_step by done.
    destruct (deleteNode segment' rest (nextNode segment node)) as [next' r'] eqn:Er.
    pose proof (deleteNode_result _ _ _ _ _ Er) as (_ & Ho' & _ & Hl' & _).
    apply IH in Er.
    destruct (nextNode_link segment node next' Ho' Hl') as [Hnx Hlk].
    cbv zeta. set (node1 := if hasNext segment node then _ else _) in *.
    assert (nullish node1 = false) as Hn1.
    { unfold node1. destruct (hasNext segment node); [|done].
      by destruct (link_kind node segment next') as (_ & _ & _ & ->). }
    assert (deleteNode segment (segment' :: rest) node1 =
            match r' with
            | Throw e => (node1, Throw e)
            | Normal empty =>
                let '(node2, e) :=
                  if empty then prune node1 segment else (node1, None) in
                match e with
                | Some e => (node2, Throw e)
                | None => (node2, Normal (reportEmpty node2))
                end
            end) as Hagain.
    { rewrite deleteNode_step by done. rewrite Hnx, Er. cbv zeta. by rewrite Hlk. }
    destruct r' as [[]|e]; [| |by intros [= <- <-]].
    + destruct (prune_spec node1 segment) as (node2 & Hp & Ho2 & Ha2 & Hn2 & He2 & Hc).
      rewrite Hp in *. intros [= <- <-].
      destruct Hc as [->|[Hu _]]; [by rewrite Hagain|].
      rewrite deleteNode_step by congruence.
      assert (nextNode segment node2 = VUndef) as ->.
      { rewrite nextNode_hasNext, Hu. by destruct (hasNext segment node2). }
      rewrite deleteNode_null by done. cbv zeta.
      assert ((if hasNext segment node2 then link node2 segment VUndef else node2)
              = node2) as ->.
      { destruct (hasNext segment node2); [|done]. rewrite <- Hu. apply link_same. }
      unfold prune. rewrite Hu. simpl. by destruct (isObjectType node2).
    + intros [= <- <-]. by rewrite Hagain.
Qed.

Lemma deleteWalk_cons segment pre node :
  deleteWalk (segment :: pre) node =
  if nullish node then VUndef else deleteWalk pre (nextNode segment node).
Proof. done. Qed.

Lemma deleteWalk_undef pre : deleteWalk pre VUndef = VUndef.
Proof. by destruct pre. Qed.

(** No mapping the walk of [deleteNode] visits below the node it starts
    from is empty once the call is over. *)
Lemma deleteNode_walk segment rest node pre :
  pre <> [] -> pre `prefix_of` segment :: rest ->
  isEmptyObject (deleteWalk pre (deleteNode segment rest node).1) = false.
Proof.
  revert segment node pre.
  induction rest as [|segment' rest IH]; intros segment node pre Hne Hpre;
    (destruct pre as [|s pre]; [done|]);
    apply prefix_cons_inv_1 in Hpre as Hs; apply prefix_cons_inv_2 in Hpre;
    subst s; rewrite deleteWalk_cons;
    (destruct (nullish node) eqn:Hn;
     [rewrite deleteNode_null by done; simpl; by rewrite Hn|]).
  - apply prefix_nil_inv in Hpre as ->.
    rewrite deleteNode_last by done.
    change (deleteWalk [] ?n) with n. rewrite nextNode_hasNext.
    destruct (isObjectType node) eqn:Ho.
    + destruct (delete_prop node segment) as [n e] eqn:Ed.
      destruct (delete_prop_kind _ _ _ _ Ed) as (_ & _ & _ & Hn').
      assert ((match e with
               | Some e => (n, Throw e)
               | None => (n, Normal (reportEmpty n))
               end).1 = n) as -> by (by destruct e).
      rewrite Hn', Hn. destruct (hasNext segment n); [|done].
      destruct e as [e|]; [|by rewrite (delete_prop_get _ _ _ Ed Ho)].
      destruct node; try done. simpl in Ed. simpl.
      destruct (String.eqb segment "length") eqn:Ek; simplify_eq.
      simpl. by rewrite Ek.
    + simpl. rewrite Hn. unfold hasNext.
      destruct node; try done; by repeat case_match.
  - rewrite deleteNode_step by done.
    destruct (deleteNode segment' rest (nextNode segment node)) as [next' r'] eqn:Er.
    pose proof (deleteNode_result _ _ _ _ _ Er) as (_ & Ho' & _ & Hl' & Hr').
    destruct (nextNode_link segment node next' Ho' Hl') as [Hnx _].
    cbv zeta. set (node1 := if hasNext segment node then _ else _) in *.
    assert (nullish node1 = false) as Hn1.
    { unfold node1. destruct (hasNext segment node); [|done].
      by destruct (link_kind node segment next') as (_ & _ & _ & ->). }
    (* below the child, the walk is the one of the recursive call *)
    assert (pre <> [] -> isEmptyObject (deleteWalk pre next') = false) as Hrec.
    { intros Hp. specialize (IH segment' (nextNode segment node) pre Hp Hpre).
      by rewrite Er in IH. }
    assert (forall n, isEmptyObject n = false -> n = next' \/ n = VUndef ->
              isEmptyObject (deleteWalk pre n) = false) as Hwalk.
    { intros n Hn2 Hc. destruct pre as [|s' pre']; [done|].
      destruct Hc as [->| ->]; [by apply Hrec|]. by rewrite deleteWalk_undef. }
    destruct r' as [empty|e].
    + destruct (prune_spec node1 segment) as (node2 & Hp & _ & _ & Hn2 & He2 & Hc).
      assert (isEmptyObject next' = false \/ empty = true) as Hb.
      { destruct empty; [by right|left].
        destruct (isEmptyObject next'); [|done]. by rewrite orb_true_r in Hr'. }
      destruct empty.
      * rewrite Hp. simpl. rewrite Hn2, Hn1.
        destruct Hc as [->|[Hu _]].
        -- rewrite Hnx. apply Hwalk; [|by left].
           rewrite <- Hnx, nextNode_hasNext. by destruct (hasNext segment node1).
        -- rewrite nextNode_hasNext, Hu.
           apply Hwalk; [by destruct (hasNext segment node2)|].
           right. by destruct (hasNext segment node2).
      * simpl. rewrite Hn1, Hnx. apply Hwalk; [|by left]. by destruct Hb.
    + simpl. rewrite Hn1, Hnx. apply Hwalk; [|by left]. by destruct Hr' as (_ & ? & _).
Qed.

Lemma deleteWalk_not_array pre v :
  nullish v = true \/ isEmptyObject v = true -> pre <> [] \/ isArray v = false ->
  isArray (deleteWalk pre v) = false.
Proof.
  intros Hv Hp. destruct pre as [|s pre].
  - simpl. destruct Hp as [|Hp]; done.
  - rewrite deleteWalk_cons. destruct (nullish v) eqn:Hn; [done|].
    destruct Hv as [|Hv]; [done|].
    assert (nextNode s v = VUndef) as ->.
    { destruct v as [| | | | |props|]; try done. simpl in Hv.
      apply Nat.eqb_eq, map_size_empty_inv in Hv as ->.
      rewrite nextNode_hasNext. destruct (hasNext s (VObj ∅)); [|done].
      simpl. by rewrite lookup_empty. }
    by rewrite deleteWalk_undef.
Qed.

(** A sequence the walk of [deleteNode] visits before the last segment is
    still there once the call is over. *)
Lemma deleteNode_keeps_sequences segment rest node pre :
  pre `prefix_of` segment :: rest -> pre <> segment :: rest ->
  isArray (deleteWalk pre node) = true ->
  isArray (deleteWalk pre (deleteNode segment rest node).1) = true.
Proof.
  revert segment node pre.
  induction rest as [|segment' rest IH]; intros segment node pre Hpre Hne Ha.
  all: destruct pre as [|s pre];
    [ change (deleteWalk [] ?v) with v in *;
      destruct (deleteNode segment _ node) as [node' r] eqn:E;
      apply deleteNode_result in E as (E & _); simpl; congruence
    | apply prefix_cons_inv_1 in Hpre as Hs; apply prefix_cons_inv_2 in Hpre;
      subst s ].
  - apply prefix_nil_inv in Hpre as ->. done.
  - rewrite deleteWalk_cons in Ha. destruct (nullish node) eqn:Hn; [done|].
    assert (pre <> segment' :: rest) as Hne' by congruence.
    rewrite deleteNode_step by done.
    destruct (deleteNode segment' rest (nextNode segment node)) as [next' r'] eqn:Er.
    pose proof (deleteNode_result _ _ _ _ _ Er) as (_ & Ho' & _ & Hl' & Hr').
    destruct (nextNode_link segment node next' Ho' Hl') as [Hnx _].
    specialize (IH segment' (nextNode segment node) pre Hpre Hne' Ha).
    rewrite Er in IH. simpl in IH.
    cbv zeta. set (node1 := if hasNext segment node then _ else _) in *.
    assert (nullish node1 = false) as Hn1.
    { unfold node1. destruct (hasNext segment node); [|done].
      by destruct (link_kind node segment next') as (_ & _ & _ & ->). }
    assert (isArray (deleteWalk (segment :: pre) node1) = true) as Hkeep.
    { by rewrite deleteWalk_cons, Hn1, Hnx. }
    destruct r' as [[]|e]; [|done|done].
    destruct (prune_spec node1 segment) as (node2 & -> & _ & _ & _ & _ & Hc).
    destruct Hc as [->|[_ He]]; [done|]. exfalso.
    symmetry in Hr'. apply orb_true_iff in Hr'.
    rewrite deleteWalk_not_array in IH; [done|done|].
    destruct pre; [right|by left].
    destruct next'; try done. by destruct Hr'.
Qed.




(** ** What the specification states about deleteIn *)

(** C3, as stated, fails for sequences: after [deleteIn({a: [1]}, "a.0")]
    the sequence under [a] holds no element and is still there, and so is
    the sequence of length 0 under [a] after [deleteIn({a: []}, "a.0")]. *)
Lemma deleteIn_empty_sequence_counterexample :
  let root := VObj {["a" := VArr 1 {["0" := VNum (JS.of_Z 1)]}]} in
  let root0 := VObj {["a" := VArr 0 ∅]} in
  (deleteIn root "a.0").1 = VObj {["a" := VArr 1 ∅]} /\
  isEmptyContainer (getIn (deleteIn root "a.0").1 "a") = true /\
  getIn (deleteIn root0 "a.0").1 "a" = VArr 0 ∅.
Proof. vm_compute. repeat split. Qed.

(** C3, amended: after any [deleteIn(root, path)] at a path without the
    name of an inherited property, no mapping that the walk of the call
    visits below the root is empty: a mapping the call empties, or finds
    empty, is removed from its parent, and so are the ancestors this empties
    (so [deleteIn({a: {b: {c: 1}}}, "a.b.c")] leaves [{}]).  The root is
    never removed, and neither is a sequence the walk goes through, whatever
    it still holds. *)
Theorem deleteIn_prunes_mappings :
  (forall root path n,
     ownPath path = true ->
     isEmptyObject (deleteWalk (take (S n) (splitPath path)) (deleteIn root path).1)
     = false) /\
  (forall root path,
     ownPath path = true ->
     nullish (deleteIn root path).1 = nullish root /\
     isArray (deleteIn root path).1 = isArray root /\
     isObjectType (deleteIn root path).1 = isObjectType root) /\
  (forall root path n,
     ownPath path = true ->
     (n < length (splitPath path))%nat ->
     isArray (deleteWalk (take n (splitPath path)) root) = true ->
     isArray (deleteWalk (take n (splitPath path)) (deleteIn root path).1) = true) /\
  deleteIn (VObj {["a" := VObj {["b" := VObj {["c" := VNum (JS.of_Z 1)]}]}]}) "a.b.c"
  = (VObj ∅, Normal true).
Proof.
  split; [|split; [|split; [|vm_compute; reflexivity]]].
  - intros root path n _. unfold deleteIn.
    destruct (splitPath path) as [|segment rest] eqn:E.
    { by apply splitPath_nonempty in E. }
    apply deleteNode_walk; [done|]. apply prefix_take.
  - intros root path _. unfold deleteIn.
    destruct (splitPath path) as [|segment rest]; [done|].
    destruct (deleteNode segment rest root) as [root' r] eqn:E.
    apply deleteNode_result in E as (? & ? & ? & _). done.
  - intros root path n _ Hn. unfold deleteIn.
    destruct (splitPath path) as [|segment rest] eqn:E.
    { by apply splitPath_nonempty in E. }
    apply deleteNode_keeps_sequences; [apply prefix_take|].
    intros Ht. apply (f_equal length) in Ht. rewrite length_take in Ht. lia.
Qed.

Lemma deleteIn_prunes_mappings_witness :
  let root := VObj {["a" := VArr 1 {["0" := VNum (JS.of_Z 1)]}]} in
  let nested := VObj {["a" := VObj {["b" := VObj {["c" := VNum (JS.of_Z 1)]}]}]} in
  (ownPath "a.0" = true /\
   (1 < length (splitPath "a.0"))%nat /\
   isArray (deleteWalk (take 1 (splitPath "a.0")) root) = true /\
   isArray (deleteWalk (take 1 (splitPath "a.0")) (deleteIn root "a.0").1) = true) /\
  (ownPath "a.b.c" = true /\
   isEmptyObject (deleteWalk (take 1 (splitPath "a.b.c")) (deleteIn nested "a.b.c").1)
   = false /\
   nullish (deleteIn nested "a.b.c").1 = nullish nested).
Proof.
  split.
  - split; [vm_compute; reflexivity|].
    split; [vm_compute; lia|]. split; [vm_compute; reflexivity|].
    apply (proj1 (proj2 (proj2 deleteIn_prunes_mappings))).
    + vm_compute; reflexivity.
    + vm_compute; lia.
    + vm_compute; reflexivity.
  - split; [vm_compute; reflexivity|]. split.
    + apply (proj1 deleteIn_prunes_mappings). vm_compute; reflexivity.
    + apply (proj1 (proj2 deleteIn_prunes_mappings)). vm_compute; reflexivity.
Defined.

(** C4, as stated, fails on the sequence that is left: it is not [[]], the
    sequence of length 0. *)
Lemma deleteIn_sequence_counterexample :
  let root := VObj {["a" := VArr 2 {["0" := VNum (JS.of_Z 1); "1" := VNum (JS.of_Z 2)]}]} in
  (deleteIn (deleteIn root "a.0").1 "a.1").1 <> VObj {["a" := VArr 0 ∅]}.
Proof. vm_compute. discriminate. Qed.

(** C4, amended: [deleteNode] never returns [true] on a sequence: it returns
    [false], even when every slot has been removed (or raises the TypeError
    of deleting [length]).  Given [{a: [1, 2]}],
    [deleteIn(root, "a.0")] then [deleteIn(root, "a.1")] leaves under [a] a
    sequence of length 2 whose two slots are holes: the sequence is
    retained, with its length. *)
Theorem deleteNode_sequence_not_reported :
  (forall segment rest len props,
     match (deleteNode segment rest (VArr len props)).2 with
     | Normal b => b = false
     | Throw e => e = TypeError
     end) /\
  (let root := VObj {["a" := VArr 2 {["0" := VNum (JS.of_Z 1); "1" := VNum (JS.of_Z 2)]}]} in
   deleteIn (deleteIn root "a.0").1 "a.1" = (VObj {["a" := VArr 2 ∅]}, Normal false)).
Proof.
  split; [|vm_compute; reflexivity].
  intros segment rest len props.
  destruct (deleteNode segment rest (VArr len props)) as [node r] eqn:E.
  apply deleteNode_result in E as (Ha & _ & _ & _ & Hr). simpl.
  destruct r as [b|e]; [|by destruct Hr]. by destruct node.
Qed.




(** C8: a second [deleteIn(R, P)] right after the first leaves [R] as the
    first left it (and returns what the first returned). *)
Theorem deleteIn_idempotent root path :
  (deleteIn (deleteIn root path).1 path).1 = (deleteIn root path).1 /\
  (deleteIn (deleteIn root path).1 path).2 = (deleteIn root path).2.
Proof.
  unfold deleteIn. destruct (splitPath path) as [|segment rest]; [done|].
  destruct (deleteNode segment rest root) as [root' r] eqn:E.
  apply deleteNode_idem in E. simpl. by rewrite E.
Qed.

(** ** isIndex *)

(** An integer below [2^53] is a binary64 value. *)
Lemma ilog2_ratio_int p : 0 < p -> JS.ilog2_ratio p 1 = Z.log2 p.
Proof.
  intros Hp. unfold JS.ilog2_ratio, JS.ge_pow2. change (Z.log2 1) with 0.
  rewrite Z.sub_0_r. pose proof (Z.log2_nonneg p) as Hn.
  destruct (Z.leb_spec 0 (Z.log2 p)); [|lia].
  rewrite Z.mul_1_l. destruct (Z.leb_spec (2 ^ Z.log2 p) p) as [|Hlt]; [done|].
  pose proof (Z.log2_spec p Hp). lia.
Qed.

Lemma round_half_even_one n : JS.round_half_even n 1 = n.
Proof.
  unfold JS.round_half_even. rewrite Z.mod_1_r, Z.div_1_r. done.
Qed.

Lemma round_ratio_exact neg p :
  0 < p < 2 ^ 53 ->
  JS.round_ratio neg p 1 =
  JS.Fin neg (Z.to_pos (p * 2 ^ (52 - Z.log2 p))) (Z.log2 p - 52).
Proof.
  intros [Hp Hlt]. unfold JS.round_ratio.
  destruct (Z.eqb_spec p 0); [lia|].
  rewrite ilog2_ratio_int by done.
  pose proof (Z.log2_nonneg p) as Hn.
  pose proof (Z.log2_spec p Hp) as [Hlo Hhi].
  assert (Z.log2 p < 53) as Hl by (apply Z.log2_lt_pow2; lia).
  unfold JS.prec, JS.emin, JS.emax.
  replace (Z.max (Z.log2 p - (53 - 1)) (-1074)) with (Z.log2 p - 52) by lia.
  set (e := Z.log2 p - 52).
  assert (e = Z.log2 p - 52) as He by done. clearbody e.
  assert ((if 0 <=? e then JS.round_half_even p (1 * 2 ^ e)
           else JS.round_half_even (p * 2 ^ (- e)) 1) = p * 2 ^ (52 - Z.log2 p)) as ->.
  { destruct (Z.leb_spec 0 e).
    - assert (e = 0) as -> by lia. replace (52 - Z.log2 p) with 0 by lia.
      change (1 * 2 ^ 0) with 1. rewrite round_half_even_one. lia.
    - rewrite round_half_even_one. f_equal. f_equal. lia. }
  assert (0 < p * 2 ^ (52 - Z.log2 p) < 2 ^ 53) as [Hm0 Hm1].
  { split; [apply Z.mul_pos_pos; [done|apply Z.pow_pos_nonneg; lia]|].
    replace 53 with (Z.succ (Z.log2 p) + (52 - Z.log2 p)) by lia.
    rewrite Z.pow_add_r by lia.
    apply Z.mul_lt_mono_pos_r; [apply Z.pow_pos_nonneg; lia|done]. }
  destruct (Z.eqb_spec (p * 2 ^ (52 - Z.log2 p)) (2 ^ 53)); [lia|].
  destruct (Z.ltb_spec 971 e); [lia|].
  destruct (p * 2 ^ (52 - Z.log2 p)) eqn:E; try lia. done.
Qed.

Lemma round_ratio_exact_inj neg p q :
  0 < p < 2 ^ 53 -> 0 < q < 2 ^ 53 ->
  JS.round_ratio neg p 1 = JS.round_ratio neg q 1 -> p = q.
Proof.
  intros Hp Hq. rewrite !round_ratio_exact by done.
  intros [= Hm He].
  assert (Z.log2 p = Z.log2 q) as Hl by lia. rewrite Hl in Hm.
  pose proof (Z.log2_nonneg q).
  assert (Z.log2 q < 53) by (apply Z.log2_lt_pow2; lia).
  assert (0 < 2 ^ (52 - Z.log2 q)) as Hpow by (apply Z.pow_pos_nonneg; lia).
  apply Z2Pos.inj in Hm; [|nia..].
  by apply Z.mul_cancel_r in Hm; [|lia].
Qed.

(** From [2^53] on, the exponent of the binary64 value is positive. *)
Lemma round_ratio_big neg p m e :
  2 ^ 53 <= p -> JS.round_ratio neg p 1 = JS.Fin neg m e -> 0 < e.
Proof.
  intros Hp. unfold JS.round_ratio.
  destruct (Z.eqb_spec p 0); [lia|].
  rewrite ilog2_ratio_int by lia.
  assert (53 <= Z.log2 p) as Hl by (apply Z.log2_le_pow2; lia).
  unfold JS.prec, JS.emin, JS.emax.
  replace (Z.max (Z.log2 p - (53 - 1)) (-1074)) with (Z.log2 p - 52) by lia.
  set (e0 := Z.log2 p - 52).
  assert (e0 = Z.log2 p - 52) as He by done. clearbody e0.
  destruct (_ =? 2 ^ 53).
  - destruct (971 <? e0 + 1); [done|]. intros [= _ <-]. lia.
  - destruct (971 <? e0); [done|]. case_match; try done. intros [= _ <-]. lia.
Qed.

(** *** Decimal digits *)

Lemma digits_value_snoc ds d :
  JS.digits_value 10 (ds ++ [d]) = 10 * JS.digits_value 10 ds + d.
Proof. unfold JS.digits_value. by rewrite fold_left_app. Qed.

Lemma digits_value_bounds ds :
  Forall isDigit ds ->
  0 <= JS.digits_value 10 ds < 10 ^ Z.of_nat (length ds) /\
  (0 < hd 0 ds -> 10 ^ (Z.of_nat (length ds) - 1) <= JS.digits_value 10 ds).
Proof.
  induction ds as [|d ds IH] using rev_ind; intros Hd.
  - simpl. split; [by vm_compute|lia].
  - apply Forall_app in Hd as [Hds Hd]. apply Forall_cons_1 in Hd as [Hd _].
    destruct (IH Hds) as [[Hlo Hhi] Hhd].
    rewrite digits_value_snoc, length_app. simpl length.
    replace (Z.of_nat (length ds + 1)) with (Z.succ (Z.of_nat (length ds))) by lia.
    rewrite Z.pow_succ_r by lia. unfold isDigit in Hd.
    split; [lia|]. intros H0. replace (Z.succ (Z.of_nat (length ds)) - 1)
      with (Z.of_nat (length ds)) by lia.
    destruct ds as [|d' ds'].
    + simpl in *. lia.
    + simpl hd in *. specialize (Hhd H0).
      replace (Z.of_nat (length (d' :: ds'))) with
        (Z.succ (Z.of_nat (length (d' :: ds')) - 1)) by lia.
      rewrite Z.pow_succ_r by (simpl length; lia). lia.
Qed.

Lemma dec_go_acc fuel n acc : JS.dec_go fuel n acc = JS.dec_go fuel n [] ++ acc.
Proof.
  revert n acc. induction fuel as [|f IH]; intros n acc; [done|].
  simpl. destruct (n <? 10); [done|].
  rewrite IH, (IH _ [_]). by rewrite <- app_assoc.
Qed.

(** The digits of [n], most significant first. *)
Lemma dec_go_digits fuel n :
  0 <= n < 2 ^ Z.of_nat (S fuel) ->
  exists ds,
    JS.dec_go (S fuel) n [] = map dch ds /\ Forall isDigit ds /\
    JS.digits_value 10 ds = n /\ ds <> [] /\ (0 < n -> 0 < hd 0 ds).
Proof.
  assert (forall n, 0 <= n < 10 ->
            exists ds, [JS.chr (48 + n mod 10)] = map dch ds /\ Forall isDigit ds /\
              JS.digits_value 10 ds = n /\ ds <> [] /\ (0 < n -> 0 < hd 0 ds)) as Hsmall.
  { intros m Hm. exists [m]. rewrite Z.mod_small by lia.
    split; [done|]. split; [constructor; [unfold isDigit; lia|done]|].
    split; [unfold JS.digits_value; simpl; lia|]. split; [done|]. done. }
  revert n. induction fuel as [|f IH]; intros n Hn.
  all: change (JS.dec_go (S ?f) n []) with
         (let acc' := JS.chr (48 + n mod 10) :: [] in
          if n <? 10 then acc' else JS.dec_go f (n / 10) acc'); cbv zeta.
  all: destruct (Z.ltb_spec n 10) as [Hlt|Hge]; [apply Hsmall; lia|].
  - assert (2 ^ Z.of_nat 1 = 2) as E by done. rewrite E in Hn. lia.
  - assert (isDigit (n mod 10)) as Hd
      by (pose proof (Z.mod_pos_bound n 10); unfold isDigit; lia).
    destruct (IH (n / 10)) as (ds & Hg & Hds & Hv & Hne & Hhd).
    { split; [apply Z.div_pos; lia|].
      rewrite (Nat2Z.inj_succ (S f)), Z.pow_succ_r in Hn by lia.
      apply Z.div_lt_upper_bound; lia. }
    exists (ds ++ [n mod 10]). rewrite dec_go_acc, Hg, map_app.
    repeat split; try done.
    + apply Forall_app; auto.
    + rewrite digits_value_snoc, Hv. symmetry. apply Z.div_mod. lia.
    + by destruct ds.
    + intros _. destruct ds; [done|]. simpl. apply Hhd.
      apply Z.div_str_pos. lia.
Qed.

Lemma dec_digits_spec n :
  0 <= n ->
  exists ds,
    JS.dec_digits n = map dch ds /\ Forall isDigit ds /\
    JS.digits_value 10 ds = n /\ ds <> [] /\ (0 < n -> 0 < hd 0 ds).
Proof.
  intros Hn. apply dec_go_digits. split; [done|].
  destruct (decide (n = 0)) as [->|]; [by vm_compute|].
  rewrite Nat2Z.inj_succ, Z2Nat.id by apply Z.log2_nonneg.
  apply Z.log2_spec. lia.
Qed.

Lemma dec_go_fuel f1 f2 n acc :
  0 <= n < 2 ^ Z.of_nat (S f1) -> n < 2 ^ Z.of_nat (S f2) ->
  JS.dec_go (S f1) n acc = JS.dec_go (S f2) n acc.
Proof.
  revert f2 n acc. induction f1 as [|f1 IH]; intros f2 n acc H1 H2.
  all: change (JS.dec_go (S ?f) n acc) with
         (let acc' := JS.chr (48 + n mod 10) :: acc in
          if n <? 10 then acc' else JS.dec_go f (n / 10) acc'); cbv zeta.
  all: destruct (Z.ltb_spec n 10); [done|].
  - assert (2 ^ Z.of_nat 1 = 2) as E by done. rewrite E in H1. lia.
  - assert (2 ^ Z.of_nat 1 = 2) as E by done.
    destruct f2 as [|f2]; [rewrite E in H2; lia|].
    rewrite (Nat2Z.inj_succ (S f1)), Z.pow_succ_r in H1 by lia.
    rewrite (Nat2Z.inj_succ (S f2)), Z.pow_succ_r in H2 by lia.
    apply IH; [split; [apply Z.div_pos; lia|]|];
      apply Z.div_lt_upper_bound; lia.
Qed.

Lemma log2_fuel n : 0 < n -> n < 2 ^ Z.of_nat (S (Z.to_nat (Z.log2 n))).
Proof.
  intros Hn. rewrite Nat2Z.inj_succ, Z2Nat.id by apply Z.log2_nonneg.
  by apply Z.log2_spec.
Qed.

Lemma dec_digits_mul10 s : 0 < s -> JS.dec_digits (10 * s) = JS.dec_digits s ++ [dch 0].
Proof.
  intros Hs. unfold JS.dec_digits at 1.
  assert (0 < Z.log2 (10 * s)) as Hl by (apply Z.log2_pos; lia).
  destruct (Z.to_nat (Z.log2 (10 * s))) as [|f] eqn:Ef; [lia|].
  pose proof (log2_fuel (10 * s) ltac:(lia)) as Hfuel. rewrite Ef in Hfuel.
  change (JS.dec_go (S (S f)) (10 * s) []) with
    (let acc' := JS.chr (48 + (10 * s) mod 10) :: [] in
     if 10 * s <? 10 then acc' else JS.dec_go (S f) (10 * s / 10) acc').
  cbv zeta. destruct (Z.ltb_spec (10 * s) 10); [lia|].
  replace (10 * s / 10) with s by (rewrite Z.mul_comm, Z.div_mul; lia).
  replace ((10 * s) mod 10) with 0 by (rewrite Z.mul_comm, Z.mod_mul; lia).
  rewrite dec_go_acc. f_equal. unfold JS.dec_digits.
  apply dec_go_fuel; [|by apply log2_fuel].
  split; [lia|]. rewrite (Nat2Z.inj_succ (S f)), Z.pow_succ_r in Hfuel by lia. lia.
Qed.

Lemma dec_digits_shift s j :
  0 < s -> 0 <= j -> JS.dec_digits (s * 10 ^ j) = JS.dec_digits s ++ JS.zeros j.
Proof.
  intros Hs Hj. revert j Hj. apply natlike_ind.
  - rewrite Z.mul_1_r. unfold JS.zeros. simpl. by rewrite app_nil_r.
  - intros j Hj IH. rewrite Z.pow_succ_r by done.
    replace (s * (10 * 10 ^ j)) with (10 * (s * 10 ^ j)) by lia.
    rewrite dec_digits_mul10 by (apply Z.mul_pos_pos; [done|by apply Z.pow_pos_nonneg]).
    rewrite IH, <- app_assoc. f_equal. unfold JS.zeros.
    rewrite Z2Nat.inj_succ by done.
    change (repeat (JS.chr 48) (Z.to_nat j) ++ [dch 0]) with
      (repeat (JS.chr 48) (Z.to_nat j) ++ [JS.chr 48]).
    by rewrite <- repeat_cons.
Qed.

(** The number of digits of a positive integer. *)
Lemma dec_digits_length n k :
  0 < k -> 10 ^ (k - 1) <= n < 10 ^ k -> Z.of_nat (length (JS.dec_digits n)) = k.
Proof.
  intros Hk [Hlo Hhi].
  assert (0 < n) as Hn by (pose proof (Z.pow_pos_nonneg 10 (k - 1)); lia).
  destruct (dec_digits_spec n ltac:(lia)) as (ds & -> & Hds & Hv & Hne & Hhd).
  rewrite length_map.
  destruct (digits_value_bounds ds Hds) as [[_ Hub] Hlb].
  specialize (Hlb (Hhd Hn)). rewrite Hv in *.
  set (l := Z.of_nat (length ds)) in *.
  assert (0 < l) by (unfold l; destruct ds; [done|simpl length; lia]).
  destruct (Z.lt_trichotomy l k) as [Hc|[Hc|Hc]]; [|done|].
  - assert (10 ^ l <= 10 ^ (k - 1)) by (apply Z.pow_le_mono_r; lia). lia.
  - assert (10 ^ k <= 10 ^ (l - 1)) by (apply Z.pow_le_mono_r; lia). lia.
Qed.

(** *** The number a decimal string denotes *)

Lemma code_dch d : isDigit d -> JS.code (dch d) = 48 + d.
Proof.
  intros Hd. unfold JS.code, dch, JS.chr, isDigit in *.
  rewrite N_ascii_embedding; lia.
Qed.

Lemma is_space_dch d : isDigit d -> JS.is_space (dch d) = false.
Proof.
  intros Hd. unfold JS.is_space. rewrite code_dch by done. unfold isDigit in Hd.
  repeat match goal with
         | |- context [?a <=? ?b] => destruct (Z.leb_spec a b)
         | |- context [?a =? ?b] => destruct (Z.eqb_spec a b)
         end; simpl; lia.
Qed.

Lemma digit_of_dch d : isDigit d -> JS.digit_of 10 (dch d) = Some d.
Proof.
  intros Hd. unfold JS.digit_of. rewrite code_dch by done. unfold isDigit in Hd.
  destruct (Z.leb_spec 48 (48 + d)); [|lia].
  destruct (Z.leb_spec (48 + d) 57); [|lia]. simpl.
  replace (48 + d - 48) with d by lia.
  destruct (Z.ltb_spec d 10); [done|lia].
Qed.

Lemma span_digits_dch ds :
  Forall isDigit ds -> JS.span_digits 10 (map dch ds) = (ds, []).
Proof.
  induction 1 as [|d ds Hd _ IH]; [done|].
  simpl. by rewrite digit_of_dch, IH.
Qed.

Lemma drop_space_dch ds :
  Forall isDigit ds -> JS.drop_space (map dch ds) = map dch ds.
Proof. destruct 1 as [|d ds Hd _]; [done|]. simpl. by rewrite is_space_dch. Qed.

Lemma trim_dch ds : Forall isDigit ds -> JS.trim (map dch ds) = map dch ds.
Proof.
  intros Hds. unfold JS.trim. rewrite drop_space_dch by done.
  rewrite <- map_rev, drop_space_dch by (by apply Forall_rev).
  by rewrite map_rev, rev_involutive.
Qed.

Lemma digit_of_inv c d :
  JS.digit_of 10 c = Some d -> isDigit d /\ c = dch d.
Proof.
  unfold JS.digit_of, isDigit.
  pose proof (N2Z.is_nonneg (N_of_ascii c)) as H0. fold (JS.code c) in H0.
  set (n := JS.code c) in *. intros H.
  assert (d = n - 48 /\ 48 <= n <= 57) as [-> Hc].
  { destruct ((48 <=? n) && (n <=? 57)) eqn:E1.
    - apply andb_prop in E1 as [?%Z.leb_le ?%Z.leb_le].
      destruct (Z.ltb_spec (n - 48) 10); [|done]. simplify_eq. lia.
    - destruct ((97 <=? n) && (n <=? 122)) eqn:E2.
      + apply andb_prop in E2 as [?%Z.leb_le ?%Z.leb_le].
        destruct (Z.ltb_spec (n - 87) 10); [lia|done].
      + destruct ((65 <=? n) && (n <=? 90)) eqn:E3; [|done].
        apply andb_prop in E3 as [?%Z.leb_le ?%Z.leb_le].
        destruct (Z.ltb_spec (n - 55) 10); [lia|done]. }
  split; [lia|]. unfold dch, JS.chr.
  replace (48 + (n - 48)) with n by lia.
  unfold n, JS.code. by rewrite N2Z.id, ascii_N_embedding.
Qed.

Lemma span_digits_inv l ds :
  JS.span_digits 10 l = (ds, []) -> l = map dch ds /\ Forall isDigit ds.
Proof.
  revert ds. induction l as [|c l IH]; intros ds; simpl.
  - by intros [= <-].
  - destruct (JS.digit_of 10 c) as [d|] eqn:Ed; [|done].
    destruct (JS.span_digits 10 l) as [ds' r]. intros [= <- ->].
    apply digit_of_inv in Ed as [Hd ->].
    destruct (IH ds' eq_refl) as [-> Hds]. by split; [|constructor].
Qed.

(** The unary plus on a string of decimal digits. *)
Lemma toNumber_digits ds :
  Forall isDigit ds -> ds <> [] ->
  JS.toNumber (string_of_list_ascii (map dch ds)) =
  JS.round_ratio false (JS.digits_value 10 ds) 1.
Proof.
  intros Hds Hne. unfold JS.toNumber.
  rewrite list_ascii_of_string_of_list_ascii, trim_dch by done.
  destruct ds as [|d ds]; [done|].
  apply Forall_cons_1 in Hds as Hd. destruct Hd as [Hd Hds'].
  assert (forall c, c < 48 \/ 57 < c -> (JS.code (dch d) =? c) = false) as Ec.
  { intros c Hc. rewrite code_dch by done. unfold isDigit in Hd.
    apply Z.eqb_neq. lia. }
  change (map dch (d :: ds)) with (dch d :: map dch ds). cbv iota beta.
  assert (JS.parse_radix (dch d :: map dch ds) = None) as ->.
  { destruct ds as [|d' ds']; [done|].
    apply Forall_cons_1 in Hds' as [Hd' _].
    change (JS.parse_radix (dch d :: map dch (d' :: ds'))) with
      (if JS.code (dch d) =? 48 then
         let radix :=
           if (JS.code (dch d') =? 120) || (JS.code (dch d') =? 88) then Some 16
           else if (JS.code (dch d') =? 111) || (JS.code (dch d') =? 79) then Some 8
           else if (JS.code (dch d') =? 98) || (JS.code (dch d') =? 66) then Some 2
           else None in
         match radix with
         | Some rx =>
             match JS.span_digits rx (map dch ds') with
             | (d :: ds, []) => Some (JS.of_Z (JS.digits_value rx (d :: ds)))
             | _ => Some JS.NaN
             end
         | None => None
         end
       else None).
    rewrite (code_dch d') by done. unfold isDigit in Hd'.
    repeat match goal with
           | |- context [48 + d' =? ?b] => destruct (Z.eqb_spec (48 + d') b); [lia|]
           end.
    simpl. by destruct (_ =? 48). }
  rewrite !Ec by lia.
  unfold JS.parse_unsigned.
  rewrite bool_decide_eq_false_2.
  2:{ simpl. intros [= Hc _]. apply (f_equal JS.code) in Hc.
      rewrite code_dch in Hc by done. unfold isDigit in Hd.
      assert (JS.code "I" = 73) as E by reflexivity. rewrite E in Hc. lia. }
  change (dch d :: map dch ds) with (map dch (d :: ds)).
  rewrite span_digits_dch by done. rewrite app_nil_r.
  simpl JS.parse_exponent. cbv iota beta.
  unfold JS.of_decimal. simpl length.
  change (0 - Z.of_nat 0) with 0. change (0 <=? 0) with true. cbv iota.
  by rewrite Z.pow_0_r, Z.mul_1_r.
Qed.

(** The unary plus on the decimal of an integer. *)
Lemma toNumber_dec n :
  0 <= n -> JS.toNumber (JS.dec n) = JS.round_ratio false n 1.
Proof.
  intros Hn.
  destruct (dec_digits_spec n Hn) as (ds & Hg & Hds & Hv & Hne & _).
  unfold JS.dec. rewrite Hg, toNumber_digits by done. by rewrite Hv.
Qed.

(** *** The string of an integer below [2^53] *)

Section printing.

Lemma strip_zeros_rev_repeat l :
  exists j, l = repeat (JS.chr 48) j ++ JS.strip_zeros_rev l.
Proof.
  induction l as [|c l [j IH]]; [by exists O|].
  simpl. destruct (Z.eqb_spec (JS.code c) 48) as [Hc|Hc]; [|by exists O].
  exists (S j). simpl. f_equal; [|done].
  unfold JS.code in Hc. rewrite <- (ascii_N_embedding c).
  unfold JS.chr. f_equal. lia.
Qed.

Lemma strip_zeros_app l :
  exists j, l = JS.strip_zeros l ++ repeat (JS.chr 48) j.
Proof.
  destruct (strip_zeros_rev_repeat (rev l)) as [j Hj]. exists j.
  unfold JS.strip_zeros. rewrite <- (rev_involutive l) at 1.
  rewrite Hj at 1. by rewrite rev_app_distr, rev_repeat.
Qed.

Variable N : Z.
Hypothesis HN : 0 < N < 2 ^ 53.

(** The scale of the mantissa, and the number of decimal digits of [N]. *)
Let b : Z := 2 ^ (52 - Z.log2 N).
Let d : Z := Z.of_nat (length (JS.dec_digits N)).
Let x : JS.number := JS.round_ratio false N 1.

Lemma scale_pos : 0 < b.
Proof.
  unfold b. apply Z.pow_pos_nonneg; [lia|].
  assert (Z.log2 N < 53) by (apply Z.log2_lt_pow2; lia). lia.
Qed.

Lemma digits_count : 0 < d <= 16 /\ 10 ^ (d - 1) <= N < 10 ^ d.
Proof.
  destruct (dec_digits_spec N ltac:(lia)) as (ds & Hg & Hds & Hv & Hne & Hhd).
  destruct (digits_value_bounds ds Hds) as [[_ Hub] Hlb].
  specialize (Hlb (Hhd ltac:(lia))). rewrite Hv in *.
  assert (d = Z.of_nat (length ds)) as Hd by (unfold d; by rewrite Hg, length_map).
  rewrite <- Hd in *.
  assert (0 < d) by (rewrite Hd; destruct ds; [done|simpl length; lia]).
  repeat split; try done.
  destruct (Z.le_gt_cases d 16) as [|Hgt]; [done|].
  assert (10 ^ 16 <= 10 ^ (d - 1)) by (apply Z.pow_le_mono_r; lia).
  assert (2 ^ 53 < 10 ^ 16) by done. lia.
Qed.

Lemma exp_up_digits fuel n bn :
  bn = b * 10 ^ n -> 0 <= n <= d -> (Z.to_nat (d - n) < fuel)%nat ->
  JS.exp_up fuel (N * b) bn n = d.
Proof.
  pose proof scale_pos as Hb. pose proof digits_count as (Hd & Hlo & Hhi).
  revert n bn. induction fuel as [|f IH]; intros n bn -> Hn Hf; [lia|].
  change (JS.exp_up (S f) (N * b) (b * 10 ^ n) n) with
    (if N * b <? b * 10 ^ n then n
     else JS.exp_up f (N * b) (10 * (b * 10 ^ n)) (n + 1)).
  destruct (Z.ltb_spec (N * b) (b * 10 ^ n)) as [Hlt|Hge].
  - destruct (decide (n = d)) as [|Hne]; [done|].
    assert (10 ^ n <= 10 ^ (d - 1)) by (apply Z.pow_le_mono_r; lia). nia.
  - destruct (decide (n = d)) as [->|Hne]; [nia|].
    apply IH; [|lia|lia]. rewrite Z.pow_add_r by lia. lia.
Qed.

Lemma dec_exponent_int : JS.dec_exponent (N * b) b = d.
Proof.
  pose proof scale_pos as Hb. pose proof digits_count as (Hd & _).
  unfold JS.dec_exponent. destruct (Z.ltb_spec (N * b) b); [nia|].
  apply exp_up_digits; [|lia|lia]. rewrite Z.pow_0_r. lia.
Qed.

(** Among the integers of [k] digits, only the leading digits of [N]
    convert back to the number [N] is. *)
Lemma try_digits_int k s :
  0 < k <= d -> JS.try_digits x (N * b) b d k = Some s -> s * 10 ^ (d - k) = N.
Proof.
  pose proof scale_pos as Hb. pose proof digits_count as (Hd & Hlo & Hhi).
  intros Hk. unfold JS.try_digits.
  destruct (Z.leb_spec 0 (k - d)) as [Hsh|Hsh].
  { assert (k = d) as -> by lia. rewrite Z.sub_diag, Z.pow_0_r, Z.mul_1_r.
    rewrite Z.div_mul, Z.mod_mul by lia. simpl (0 =? 0).
    cbv iota. case_bool_decide; [|done]. intros [= <-]. lia. }
  replace (- (k - d)) with (d - k) by lia.
  set (P := 10 ^ (d - k)).
  assert (1 < P) as HP.
  { unfold P. change 1 with (10 ^ 0). apply Z.pow_lt_mono_r; lia. }
  rewrite (Z.mul_comm N b), Z.div_mul_cancel_l, Zmult_mod_distr_l by lia.
  set (f := N / P). set (r := N mod P).
  assert (N = P * f + r /\ 0 <= r < P) as [HNeq Hr].
  { split; [apply Z.div_mod; lia|apply Z.mod_pos_bound; lia]. }
  assert (0 <= f) as Hf by (apply Z.div_pos; lia).
  assert (forall c, JS.of_decimal false c (d - k) = JS.round_ratio false (c * P) 1) as Hdec.
  { intros c. unfold JS.of_decimal. destruct (Z.leb_spec 0 (d - k)); [done|lia]. }
  rewrite !Hdec.
  assert (JS.round_ratio false (f * P) 1 = x -> f * P = N) as Hokf.
  { intros Hx. destruct (decide (f = 0)) as [->|Hf0].
    - rewrite Z.mul_0_l in Hx.
      change (JS.round_ratio false 0 1) with (JS.Zero false) in Hx.
      unfold x in Hx. rewrite round_ratio_exact in Hx by done. done.
    - apply (round_ratio_exact_inj false); [nia|done|done]. }
  assert (JS.round_ratio false ((f + 1) * P) 1 <> x) as Hokc.
  { intros Hx. destruct (Z.lt_ge_cases ((f + 1) * P) (2 ^ 53)) as [Hlt|Hge].
    - apply (round_ratio_exact_inj false) in Hx; [nia|nia|done].
    - unfold x in Hx. rewrite (round_ratio_exact false N) in Hx by done.
      apply round_ratio_big in Hx; [|lia].
      assert (Z.log2 N < 53) by (apply Z.log2_lt_pow2; lia). lia. }
  rewrite (bool_decide_eq_false_2 _ Hokc).
  destruct (b * r =? 0); case_bool_decide; try done; intros [= <-]; auto.
Qed.

Lemma try_digits_all : JS.try_digits x (N * b) b d d = Some N.
Proof.
  pose proof scale_pos as Hb.
  unfold JS.try_digits. rewrite Z.sub_diag. change (0 <=? 0) with true. cbv iota.
  rewrite Z.pow_0_r, Z.mul_1_r, Z.div_mul, Z.mod_mul by lia.
  change (0 =? 0) with true. cbv iota. rewrite bool_decide_eq_true_2; [done|].
  unfold JS.of_decimal. change (0 <=? 0) with true. cbv iota.
  by rewrite Z.pow_0_r, Z.mul_1_r.
Qed.

Lemma shortest_go_int fuel k :
  0 < k <= d -> (Z.to_nat (d - k) < fuel)%nat ->
  exists s k',
    JS.shortest_go fuel x (N * b) b d k = (s, k') /\
    k <= k' <= d /\ s * 10 ^ (d - k') = N.
Proof.
  revert k. induction fuel as [|f IH]; intros k Hk Hf; [lia|].
  simpl. destruct (JS.try_digits x (N * b) b d k) as [s|] eqn:Et.
  - exists s, k. split; [done|]. split; [lia|]. by apply try_digits_int.
  - destruct (decide (k = d)) as [->|Hne]; [by rewrite try_digits_all in Et|].
    destruct (IH (k + 1)) as (s & k' & -> & Hk' & Hs); [lia|lia|].
    exists s, k'. split; [done|]. split; [lia|done].
Qed.

(** The digits and the exponent the language prints [N] with. *)
Lemma shortest_int :
  exists ds j,
    JS.shortest (Z.to_pos (N * b)) (Z.log2 N - 52) = (ds, d) /\
    JS.dec_digits N = ds ++ repeat (JS.chr 48) j /\
    Z.of_nat (length ds) + Z.of_nat j = d.
Proof.
  pose proof scale_pos as Hb. pose proof digits_count as (Hd & Hlo & Hhi).
  assert (Z.log2 N < 53) as Hl by (apply Z.log2_lt_pow2; lia).
  pose proof (Z.log2_nonneg N) as Hl0.
  unfold JS.shortest.
  assert (Z.pos (Z.to_pos (N * b)) = N * b) as Hm by (rewrite Z2Pos.id; nia).
  assert ((if 0 <=? Z.log2 N - 52
           then Z.pos (Z.to_pos (N * b)) * 2 ^ (Z.log2 N - 52)
           else Z.pos (Z.to_pos (N * b))) = N * b) as ->.
  { rewrite Hm. destruct (Z.leb_spec 0 (Z.log2 N - 52)); [|done].
    replace (Z.log2 N - 52) with 0 by lia. lia. }
  assert ((if 0 <=? Z.log2 N - 52 then 1 else 2 ^ (- (Z.log2 N - 52))) = b) as ->.
  { unfold b. destruct (Z.leb_spec 0 (Z.log2 N - 52)).
    - by replace (52 - Z.log2 N) with 0 by lia.
    - f_equal. lia. }
  rewrite dec_exponent_int.
  assert (JS.Fin false (Z.to_pos (N * b)) (Z.log2 N - 52) = x) as ->.
  { unfold x. by rewrite round_ratio_exact. }
  destruct (shortest_go_int 17 1) as (s & k & -> & Hk & Hs); [lia|lia|].
  set (P := 10 ^ (d - k)) in *.
  assert (0 < P) as HP by (apply Z.pow_pos_nonneg; lia).
  assert (10 ^ (k - 1) <= s < 10 ^ k) as Hsk.
  { assert (10 ^ (d - 1) = 10 ^ (k - 1) * P) as E1.
    { unfold P. rewrite <- Z.pow_add_r by lia. f_equal. lia. }
    assert (10 ^ d = 10 ^ k * P) as E2.
    { unfold P. rewrite <- Z.pow_add_r by lia. f_equal. lia. }
    split; [apply (Z.mul_le_mono_pos_r _ _ P); lia|].
    apply (Z.mul_lt_mono_pos_r P); lia. }
  assert (0 < s) as Hs0 by (pose proof (Z.pow_pos_nonneg 10 (k - 1)); lia).
  rewrite (dec_digits_length s k) by lia.
  destruct (strip_zeros_app (JS.dec_digits s)) as [j Hj].
  exists (JS.strip_zeros (JS.dec_digits s)), (j + Z.to_nat (d - k))%nat.
  split; [f_equal; lia|]. split.
  - rewrite <- Hs. unfold P. rewrite dec_digits_shift by lia.
    rewrite Hj at 1. rewrite <- app_assoc. f_equal. unfold JS.zeros.
    by rewrite repeat_app.
  - apply (f_equal (@length ascii)) in Hj.
    rewrite length_app, repeat_length in Hj.
    pose proof (dec_digits_length s k ltac:(lia) Hsk). lia.
Qed.

End printing.

(** Printing the number the decimal of [n] denotes gives the decimal back. *)
Lemma numberToString_toNumber_dec n :
  0 <= n < 2 ^ 53 -> JS.numberToString (JS.toNumber (JS.dec n)) = JS.dec n.
Proof.
  intros [Hn0 Hn]. destruct (decide (n = 0)) as [->|Hne]; [by vm_compute|].
  rewrite toNumber_dec, round_ratio_exact by lia.
  destruct (shortest_int n ltac:(lia)) as (ds & j & Hs & Hd & Hl).
  unfold JS.numberToString. rewrite Hs. unfold JS.dec. f_equal.
  unfold JS.format.
  pose proof (digits_count n ltac:(lia)) as ((_ & Hd16) & _).
  set (d := Z.of_nat (length (JS.dec_digits n))) in *.
  destruct (Z.leb_spec (Z.of_nat (length ds)) d); [|lia].
  destruct (Z.leb_spec d 21); [|lia]. simpl.
  rewrite Hd. f_equal. unfold JS.zeros. f_equal. lia.
Qed.

(** ** What the specification states about isIndex *)

(** On a string of decimal digits that denotes an integer below [2^53], the
    classification is the one of the specification. *)
Lemma isIndex_digits s ds :
  JS.span_digits 10 (list_ascii_of_string s) = (ds, []) -> ds <> [] ->
  JS.digits_value 10 ds < 2 ^ 53 ->
  isIndex s = specIndexSegment s.
Proof.
  intros Hspan Hne Hv.
  destruct (span_digits_inv _ _ Hspan) as [Hl Hds].
  assert (s = string_of_list_ascii (map dch ds)) as Hs.
  { by rewrite <- Hl, string_of_list_ascii_of_string. }
  pose proof (digits_value_bounds ds Hds) as [[Hv0 _] _].
  unfold isIndex, specIndexSegment, canonicalNat. rewrite Hspan.
  destruct ds as [|d ds']; [done|]. cbv zeta.
  rewrite Hs at 1. rewrite toNumber_digits by done.
  rewrite <- (toNumber_dec (JS.digits_value 10 (d :: ds'))) by done.
  rewrite numberToString_toNumber_dec by lia.
  by destruct (String.eqb _ s).
Qed.

(** C5, as stated, fails: the segment [-1] is classified as an index
    segment, and it is not the canonical decimal of a non-negative integer;
    the canonical decimal [9007199254740993] is classified as a key
    segment. *)
Lemma isIndex_counterexample :
  isIndex "-1" = true /\ specIndexSegment "-1" = false /\
  isIndex "9007199254740993" = false /\
  specIndexSegment "9007199254740993" = true.
Proof. repeat split; vm_compute; reflexivity. Qed.

(** C5, amended: a segment is an index segment if and only if printing the
    number it parses to reproduces the segment exactly.  For a segment made
    of decimal digits that denotes an integer below [2^53] this is the
    criterion of the specification: it is an index segment if and only if it
    is the canonical decimal of that integer; so every canonical decimal of a
    non-negative integer below [2^53] is an index segment and [01] is a key
    segment.  Other segments that the language prints numbers as are index
    segments too ([-1], [NaN], [Infinity]), every other segment is a key
    segment ([abc], the empty segment), and so is the canonical decimal of
    an integer that is no binary64 value ([9007199254740993]). *)
Theorem isIndex_classification :
  (forall s, isIndex s = true <-> JS.numberToString (JS.toNumber s) = s) /\
  (forall s ds,
     JS.span_digits 10 (list_ascii_of_string s) = (ds, []) -> ds <> [] ->
     JS.digits_value 10 ds < 2 ^ 53 ->
     isIndex s = specIndexSegment s) /\
  (forall n, 0 <= n < 2 ^ 53 -> isIndex (JS.dec n) = true) /\
  isIndex "01" = false /\ isIndex "-1" = true /\ isIndex "NaN" = true /\
  isIndex "Infinity" = true /\ isIndex "abc" = false /\ isIndex "" = false /\
  isIndex "9007199254740993" = false.
Proof.
  split; [intros s; apply String.eqb_eq|].
  split; [apply isIndex_digits|].
  split; [|repeat split; vm_compute; reflexivity].
  intros n Hn. unfold isIndex. rewrite numberToString_toNumber_dec by done.
  apply String.eqb_refl.
Qed.

Lemma isIndex_classification_witness :
  JS.span_digits 10 (list_ascii_of_string "42") = ([4; 2], []) /\
  JS.digits_value 10 [4; 2] < 2 ^ 53 /\
  isIndex "42" = specIndexSegment "42" /\
  isIndex (JS.dec 42) = true.
Proof.
  split; [reflexivity|]. split; [reflexivity|]. split.
  - apply (proj1 (proj2 isIndex_classification) "42" [4; 2]);
      [reflexivity|discriminate|reflexivity].
  - apply (proj1 (proj2 (proj2 isIndex_classification)) 42). split; [lia|reflexivity].
Defined.

(** * Paths, and what the three functions do at other paths *)

(** ** splitPath *)

Lemma splitPath_app p q :
  splitPath (p +:+ "." +:+ q) = splitPath p ++ splitPath q.
Proof.
  induction p as [|c p IH]; [done|].
  change (String c p +:+ "." +:+ q) with (String c (p +:+ "." +:+ q)).
  simpl. rewrite IH. destruct (Ascii.eqb c "."); [done|].
  destruct (splitPath p) as [|s l] eqn:E; [by apply splitPath_nonempty in E|done].
Qed.

Lemma joinPath_splitPath p : joinPath (splitPath p) = p.
Proof.
  induction p as [|c p IH]; [done|]. simpl.
  destruct (splitPath p) as [|s l] eqn:E; [by apply splitPath_nonempty in E|].
  destruct (Ascii.eqb_spec c ".") as [->|_].
  - change (joinPath ("" :: s :: l)) with ("" +:+ "." +:+ joinPath (s :: l)).
    by rewrite IH.
  - destruct l as [|s' l]; simpl in *; by rewrite <- IH.
Qed.

Lemma splitPath_dotFree p : Forall (fun s => dotFree s = true) (splitPath p).
Proof.
  induction p as [|c p IH]; simpl; [by repeat constructor|].
  destruct (Ascii.eqb c ".") eqn:Ec; [by constructor|].
  destruct (splitPath p) as [|s l]; [by repeat constructor; simpl; rewrite Ec|].
  inversion IH; subst. constructor; [|done]. simpl. by rewrite Ec.
Qed.

Lemma splitPath_segment s : dotFree s = true -> splitPath s = [s].
Proof.
  induction s as [|c s IH]; [done|]. simpl.
  intros [Hc Hs]%andb_prop. apply negb_true_iff in Hc. rewrite Hc.
  by rewrite IH.
Qed.

Lemma splitPath_joinPath segments :
  segments <> [] -> Forall (fun s => dotFree s = true) segments ->
  splitPath (joinPath segments) = segments.
Proof.
  induction segments as [|s [|s' l] IH]; intros Hne Hall; [done|..].
  - inversion Hall; subst. by apply splitPath_segment.
  - inversion Hall; subst.
    change (joinPath (s :: s' :: l)) with (s +:+ "." +:+ joinPath (s' :: l)).
    rewrite splitPath_app, IH by done. by rewrite splitPath_segment.
Qed.

(** X1: [splitPath] cuts a path at its dots and loses nothing: the segments
    have no dot, there is at least one, and joined with dots they give the
    path back; and segments without dot are the split of their join, so that
    the paths and the non-empty lists of dot-free segments correspond one to
    one.  The empty path is the path of the one segment [""]. *)
Theorem splitPath_roundtrip :
  (forall p,
     joinPath (splitPath p) = p /\ splitPath p <> [] /\
     Forall (fun s => dotFree s = true) (splitPath p)) /\
  (forall segments,
     segments <> [] -> Forall (fun s => dotFree s = true) segments ->
     splitPath (joinPath segments) = segments) /\
  splitPath "" = [""].
Proof.
  split; [|split; [apply splitPath_joinPath|done]].
  intros p. split; [apply joinPath_splitPath|].
  split; [apply splitPath_nonempty|apply splitPath_dotFree].
Qed.

Lemma splitPath_roundtrip_witness :
  ["user"; "tags"; "1"] <> [] /\
  Forall (fun s => dotFree s = true) ["user"; "tags"; "1"] /\
  splitPath (joinPath ["user"; "tags"; "1"]) = ["user"; "tags"; "1"].
Proof.
  assert (["user"; "tags"; "1"] <> ([] : list string)) as Hne by discriminate.
  assert (Forall (fun s => dotFree s = true) ["user"; "tags"; "1"]) as Hall
    by (repeat constructor).
  split; [exact Hne|]. split; [exact Hall|].
  exact (proj1 (proj2 splitPath_roundtrip) _ Hne Hall).
Defined.

(** X2: reading at a path made of two paths is reading at the second one in
    what is read at the first: [getIn(obj, p + "." + q)] is
    [getIn(getIn(obj, p), q)], also when nothing is at [p]. *)
Theorem getIn_path_append obj p q :
  getIn obj (p +:+ "." +:+ q) = getIn (getIn obj p) q.
Proof. unfold getIn. by rewrite splitPath_app, getIn_loop_app. Qed.

(** ** setIn at other paths *)

Lemma set_prop_other current k x node e j :
  set_prop current k x = (node, e) ->
  j <> k -> k <> "length" -> j <> "length" ->
  get_prop node j = get_prop current j.
Proof.
  intros H Hj Hk Hl. apply String.eqb_neq in Hk, Hl.
  destruct current; simpl in H; simplify_eq; try done; simpl.
  - by rewrite lookup_insert_ne.
  - rewrite Hk in H. case_match; simplify_eq; simpl; by rewrite Hl, lookup_insert_ne.
Qed.

Lemma link_other parent k child j :
  j <> k -> get_prop (link parent k child) j = get_prop parent j.
Proof.
  intros Hj. destruct parent; simpl; try done.
  - by rewrite lookup_alter_ne.
  - destruct (String.eqb k "length"); [done|]. simpl. by rewrite lookup_alter_ne.
Qed.

Lemma link_link parent k a b : link (link parent k a) k b = link parent k b.
Proof.
  destruct parent as [| | | | |props|len props]; simpl; try done.
  - by rewrite alter_alter_eq.
  - destruct (String.eqb k "length") eqn:E; simpl; rewrite E; [done|].
    by rewrite alter_alter_eq.
Qed.

(** What [x[k]] is on a falsy [x]: nothing, or the length of the empty
    string. *)
Lemma get_prop_falsy x k :
  truthy x = false ->
  isObjectType (get_prop x k) = false /\
  (k <> "length" -> get_prop x k = VUndef) /\
  forall j, get_prop (get_prop x k) j = VUndef.
Proof.
  destruct x as [| |b|n|s| |]; simpl; try done.
  intros Hs. apply negb_false_iff, String.eqb_eq in Hs as ->.
  destruct (String.eqb k "length") eqn:Ek; simpl.
  - split; [done|]. split; [|done]. intros Hk. by apply String.eqb_neq in Hk; congruence.
  - destruct (array_index k); [|done]. by destruct (Z.to_nat z).
Qed.

Lemma getIn_loop_falsy x s segments :
  truthy x = false -> s <> "length" \/ segments <> [] ->
  getIn_loop (s :: segments) x = VUndef.
Proof.
  intros Hx Hs. rewrite getIn_loop_cons. destruct (nullish x); [done|].
  destruct (get_prop_falsy x s Hx) as (_ & Hu & Hj).
  destruct (decide (s = "length")) as [->|Hne].
  - destruct Hs as [|Hs]; [done|]. destruct segments as [|s' r]; [done|].
    rewrite getIn_loop_cons, Hj. destruct (nullish _); [done|apply getIn_loop_undef].
  - rewrite Hu by done. apply getIn_loop_undef.
Qed.

Lemma vivify_other current s next node e j :
  vivify current s next = (node, e) ->
  j <> s -> s <> "length" -> j <> "length" ->
  get_prop node j = get_prop current j.
Proof.
  unfold vivify. destruct (negb (truthy _)); [|by intros; simplify_eq].
  apply set_prop_other.
Qed.

(** The child under the segment after a non-terminal step of [setIn]. *)
Lemma get_link_setIn node s segments value :
  get_prop (link node s (setIn_loop segments (get_prop node s) value).1) s
  = (setIn_loop segments (get_prop node s) value).1.
Proof.
  destruct (isObjectType (get_prop node s)) eqn:Eo; [by apply get_link|].
  rewrite setIn_loop_leaf by done. by rewrite link_same.
Qed.

Lemma setIn_loop_other sp restp root value sq :
  sq <> sp -> sp <> "length" -> sq <> "length" ->
  get_prop (setIn_loop (sp :: restp) root value).1 sq = get_prop root sq.
Proof.
  intros Hq Hp Hl. destruct restp as [|next rest].
  - rewrite setIn_loop_last.
    destruct (isIndex sp); [destruct (isArray root)|]; try done.
    all: destruct (set_prop root sp value) as [n e] eqn:E;
      by apply (set_prop_other _ _ _ _ _ sq) in E.
  - rewrite setIn_loop_step.
    destruct (isIndex sp && negb (isArray root)); [done|].
    destruct (negb (isIndex sp) && nullish root); [done|].
    destruct (vivify root sp next) as [node e] eqn:Ev.
    apply (vivify_other _ _ _ _ _ sq) in Ev; try done.
    destruct e; [done|].
    destruct (setIn_loop (next :: rest) (get_prop node sp) value) as [child e].
    simpl. by rewrite link_other.
Qed.

(** [setIn] writes along its segments only, whether it returns or raises:
    what [getIn] reads along segments that leave them is what it read
    before. *)
Lemma setIn_loop_frame common sp restp sq restq root value :
  sq <> sp -> sp <> "length" -> sq <> "length" ->
  getIn_loop (common ++ sq :: restq) (setIn_loop (common ++ sp :: restp) root value).1
  = getIn_loop (common ++ sq :: restq) root.
Proof.
  intros Hq Hp Hl. revert root.
  induction common as [|s common IH]; intros root.
  - simpl app. rewrite !getIn_loop_cons.
    destruct (setIn_loop_kind (sp :: restp) root value) as (_ & _ & _ & ->).
    by rewrite setIn_loop_other.
  - rewrite <- !app_comm_cons.
    destruct (common ++ sp :: restp) as [|next rest] eqn:Hc; [by destruct common|].
    rewrite setIn_loop_step.
    destruct (isIndex s && negb (isArray root)); [done|].
    destruct (negb (isIndex s) && nullish root); [done|].
    destruct (vivify root s next) as [node e] eqn:Ev.
    destruct e as [e|].
    { unfold vivify in Ev. destruct (negb (truthy _)); [|by simplify_eq].
      by apply set_prop_error in Ev as [_ ->]. }
    pose proof (get_link_setIn node s (next :: rest) value) as Hg.
    destruct (setIn_loop (next :: rest) (get_prop node s) value) as [child e] eqn:Er.
    simpl in Hg. simpl fst.
    rewrite !(getIn_loop_cons s).
    destruct (link_kind node s child) as (_ & _ & _ & ->).
    assert (nullish node = nullish root) as ->.
    { unfold vivify in Ev. destruct (negb (truthy _)); [|by simplify_eq].
      by apply set_prop_kind in Ev as (_ & _ & _ & ->). }
    destruct (nullish root); [done|].
    rewrite Hg. specialize (IH (get_prop node s)). rewrite ?Hc in IH.
    rewrite Er in IH. simpl in IH. rewrite IH.
    unfold vivify in Ev. destruct (truthy (get_prop root s)) eqn:Et; simpl in Ev;
      [by simplify_eq|].
    assert (vivify root s next = (node, None)) as Ev'.
    { unfold vivify. by rewrite Et. }
    apply vivify_cases in Ev' as [[-> _]|[-> _]]; [done|].
    destruct common as [|s' common]; simpl in Hc; simplify_eq; simpl app.
    + rewrite (getIn_loop_falsy (get_prop root s)) by auto.
      rewrite getIn_loop_cons.
      assert (get_prop (fresh next) sq = VUndef) as ->.
      { unfold fresh. destruct (isIndex next); simpl; [|done].
        apply String.eqb_neq in Hl. by rewrite Hl. }
      destruct (nullish _); [done|apply getIn_loop_undef].
    + rewrite getIn_loop_fresh.
      rewrite (getIn_loop_falsy (get_prop root s)); [done..|].
      right. by destruct common.
Qed.

(** X3: [setIn] writes along its path only.  No segment of the two paths
    being the name of an inherited property: at a path that leaves the path
    of the call at some segment, neither of the two segments being
    ["length"], [getIn] reads after the call what it read before, whether
    the call returned or raised.  (The length of an array is what [setIn]
    changes beside its path.) *)
Theorem setIn_leaves_other_paths root p value q common sp restp sq restq :
  ownPath p = true -> ownPath q = true ->
  splitPath p = common ++ sp :: restp ->
  splitPath q = common ++ sq :: restq ->
  sq <> sp -> sp <> "length" -> sq <> "length" ->
  getIn (setIn root p value).1 q = getIn root q.
Proof.
  intros _ _. unfold getIn, setIn. intros -> ->. apply setIn_loop_frame.
Qed.

Lemma setIn_leaves_other_paths_witness :
  getIn (setIn sample "user.address.city" (VStr "NY")).1 "user.tags.1"
  = getIn sample "user.tags.1".
Proof.
  apply (setIn_leaves_other_paths sample "user.address.city" (VStr "NY")
           "user.tags.1" ["user"] "address" ["city"] "tags" ["1"]).
  - vm_compute; reflexivity.
  - vm_compute; reflexivity.
  - vm_compute; reflexivity.
  - vm_compute; reflexivity.
  - discriminate.
  - discriminate.
  - discriminate.
Defined.

Lemma set_prop_set_prop current k a b node :
  set_prop current k a = (node, None) -> k <> "length" ->
  set_prop node k b = set_prop current k b.
Proof.
  intros H Hk. apply String.eqb_neq in Hk.
  destruct current as [| | | | |props|len props]; simpl in H; simplify_eq; simpl.
  - by rewrite insert_insert_eq.
  - rewrite Hk in H. destruct (array_index k) as [i|] eqn:Ei; simplify_eq; simpl;
      rewrite Hk, Ei, insert_insert_eq; [|done].
    do 2 f_equal. lia.
Qed.

(** After a call that returned, a second call over the same segments does
    what it would have done in place of the first. *)
Lemma setIn_loop_overwrite segments root v1 v2 r1 :
  setIn_loop segments root v1 = (r1, None) ->
  List.last segments "" <> "length" ->
  setIn_loop segments r1 v2 = setIn_loop segments root v2.
Proof.
  revert root r1. induction segments as [|s [|next rest] IH]; intros root r1.
  - by intros [= <-].
  - rewrite !setIn_loop_last. simpl List.last. intros H Hs.
    destruct (isIndex s).
    + destruct (isArray root) eqn:Ea; [|simplify_eq; by rewrite Ea].
      destruct (set_prop_kind _ _ _ _ _ H) as (-> & _). rewrite Ea.
      by apply (set_prop_set_prop _ _ v1).
    + by apply (set_prop_set_prop _ _ v1).
  - rewrite !setIn_loop_step.
    change (List.last (s :: next :: rest) "") with (List.last (next :: rest) "").
    intros H Hl.
    destruct (setIn_loop_kind (s :: next :: rest) root v1) as (Ha & _ & _ & Hn).
    rewrite setIn_loop_step in Ha, Hn.
    destruct (isIndex s && negb (isArray root)) eqn:E1; [done|].
    destruct (negb (isIndex s) && nullish root) eqn:E2; [done|].
    rewrite H in Ha, Hn. simpl in Ha, Hn. rewrite Ha, Hn, E1, E2.
    destruct (vivify root s next) as [node e] eqn:Ev.
    destruct e as [e|]; [done|].
    pose proof (get_link_setIn node s (next :: rest) v1) as Hg.
    destruct (setIn_loop_kind (next :: rest) (get_prop node s) v1) as (_ & _ & Ho & _).
    destruct (setIn_loop (next :: rest) (get_prop node s) v1) as [c1 e] eqn:Er.
    simpl in Hg, Ho. injection H as <- ->.
    specialize (IH _ _ Er Hl).
    destruct (isObjectType (get_prop node s)) eqn:Eo.
    + (* the child is a container, and stays one *)
      assert (vivify (link node s c1) s next = (link node s c1, None)) as ->.
      { unfold vivify. rewrite Hg. by destruct c1. }
      rewrite Hg, IH.
      destruct (setIn_loop (next :: rest) (get_prop node s) v2) as [c2 e2].
      by rewrite link_link.
    + (* the child is a primitive value: nothing was written below it *)
      pose proof (setIn_loop_leaf (next :: rest) _ v1 Eo) as Hleaf.
      rewrite Er in Hleaf. simpl in Hleaf. subst c1. rewrite link_same.
      apply vivify_cases in Ev as Hc. destruct Hc as [[-> _]|[Hf _]].
      * by rewrite Ev.
      * rewrite Hf in Eo. unfold fresh in Eo. by destruct (isIndex next).
Qed.

(** X4: the last write wins.  At a path without the name of an inherited
    property: after a [setIn] that returned, a second [setIn] at the same
    path leaves the root as, and returns or raises as, it would have done in
    place of the first, when the last segment is not ["length"] (assigning
    the length of an array drops elements, which a second assignment does
    not bring back). *)
Theorem setIn_last_write_wins root p v1 v2 root1 :
  ownPath p = true ->
  setIn root p v1 = (root1, None) -> lastSegment p <> "length" ->
  setIn root1 p v2 = setIn root p v2.
Proof. intros _. unfold setIn, lastSegment. apply setIn_loop_overwrite. Qed.

Lemma setIn_last_write_wins_witness :
  let root := VObj {["user" := VObj {["name" := VStr "Jane"]}]} in
  setIn (setIn root "user.tags.1" (VStr "a")).1 "user.tags.1" (VStr "b")
  = setIn root "user.tags.1" (VStr "b").
Proof.
  intros root.
  apply (setIn_last_write_wins root "user.tags.1" (VStr "a") (VStr "b")).
  - vm_compute; reflexivity.
  - vm_compute; reflexivity.
  - vm_compute; discriminate.
Defined.

(** ** setIn on a root that conforms to the path *)

Lemma conforms_last s node : conforms [s] node = kindAgrees s node.
Proof. simpl. apply andb_true_r. Qed.

Lemma conforms_cons s next rest node :
  conforms (s :: next :: rest) node = true <->
  kindAgrees s node = true /\
  (get_prop node s = VUndef \/ conforms (next :: rest) (get_prop node s) = true).
Proof.
  change (conforms (s :: next :: rest) node) with
    (kindAgrees s node &&
     match get_prop node s with
     | VUndef => true
     | child => conforms (next :: rest) child
     end).
  rewrite andb_true_iff. split.
  - intros [Hk Hm]. split; [done|]. destruct (get_prop node s); auto.
  - intros [Hk [Hu|Hc]]; (split; [done|]); [by rewrite Hu|].
    by destruct (get_prop node s).
Qed.

(** A node that conforms to segments is a container. *)
Lemma conforms_object s rest node :
  conforms (s :: rest) node = true ->
  isObjectType node = true /\ truthy node = true /\ nullish node = false /\
  kindAgrees s node = true.
Proof.
  intros H. assert (kindAgrees s node = true) as Hk.
  { destruct rest; [by rewrite conforms_last in H|].
    by apply conforms_cons in H as [? _]. }
  repeat split; [| | |done]; unfold kindAgrees in Hk;
    by destruct (isIndex s), node.
Qed.

Lemma conforms_fresh next sq rq :
  isIndex sq = isIndex next -> conforms (sq :: rq) (fresh next) = true.
Proof.
  intros Hi.
  assert (kindAgrees sq (fresh next) = true) as Hk.
  { unfold kindAgrees, fresh. rewrite Hi. by destruct (isIndex next). }
  destruct rq as [|sq' rq]; [by rewrite conforms_last|].
  apply conforms_cons. split; [done|]. left.
  unfold fresh. rewrite <- Hi. destruct (isIndex sq) eqn:E; simpl; [|done].
  apply isIndex_not_length, String.eqb_neq in E. by rewrite E.
Qed.

Lemma kindAgrees_kind s node' node :
  isArray node' = isArray node -> isMapping node' = isMapping node ->
  kindAgrees s node' = kindAgrees s node.
Proof. unfold kindAgrees. by intros -> ->. Qed.

(** Writing under a segment that addresses the container. *)
Lemma set_prop_agrees s node x :
  kindAgrees s node = true ->
  exists node',
    set_prop node s x = (node', None) /\ get_prop node' s = x /\
    forall j, j <> s -> kindAgrees j node = true ->
              get_prop node' j = get_prop node j.
Proof.
  unfold kindAgrees. destruct (isIndex s) eqn:Es.
  - destruct node as [| | | | | |len props]; try done. intros _.
    apply isIndex_not_length, String.eqb_neq in Es as Hs.
    simpl. rewrite Hs.
    assert (forall j, j <> s -> (if isIndex j then true else false) = true ->
                      String.eqb j "length" = false) as Hj.
    { intros j _ Hi. destruct (isIndex j) eqn:Ej; [|done].
      by apply isIndex_not_length, String.eqb_neq in Ej. }
    destruct (array_index s); eexists; (split; [done|]); simpl; rewrite Hs;
      (split; [by rewrite lookup_insert_eq|]);
      intros j Hne Hk; rewrite (Hj j Hne Hk); by rewrite lookup_insert_ne.
  - destruct node as [| | | | |props|]; try done. intros _.
    eexists. split; [done|]. simpl. split; [by rewrite lookup_insert_eq|].
    intros j Hne _. by rewrite lookup_insert_ne.
Qed.

(** The first half of a non-terminal step on a node that conforms. *)
Lemma vivify_conforms s next rest node :
  conforms (s :: next :: rest) node = true ->
  exists node1,
    vivify node s next = (node1, None) /\
    isArray node1 = isArray node /\ isMapping node1 = isMapping node /\
    nullish node1 = false /\
    conforms (next :: rest) (get_prop node1 s) = true /\
    (forall j, j <> s -> kindAgrees j node = true ->
               get_prop node1 j = get_prop node j) /\
    (get_prop node1 s = get_prop node s \/
     (get_prop node s = VUndef /\ get_prop node1 s = fresh next)).
Proof.
  intros H. pose proof (conforms_object _ _ _ H) as (_ & _ & Hn & _).
  apply conforms_cons in H as [Hk [Hu|Hc]]; unfold vivify.
  - rewrite Hu. simpl.
    destruct (set_prop_agrees s node (fresh next) Hk) as (node1 & Hs & Hg & Ho).
    exists node1. destruct (set_prop_kind _ _ _ _ _ Hs) as (-> & -> & _ & ->).
    rewrite Hg. repeat split; auto. by apply conforms_fresh.
  - apply conforms_object in Hc as Hc'. destruct Hc' as (_ & -> & _).
    exists node. simpl. repeat split; auto.
Qed.

Lemma setIn_loop_first s next rest node value :
  conforms (s :: next :: rest) node = true ->
  exists node1,
    vivify node s next = (node1, None) /\
    setIn_loop (s :: next :: rest) node value
    = (link node1 s (setIn_loop (next :: rest) (get_prop node1 s) value).1,
       (setIn_loop (next :: rest) (get_prop node1 s) value).2) /\
    get_prop (link node1 s (setIn_loop (next :: rest) (get_prop node1 s) value).1) s
    = (setIn_loop (next :: rest) (get_prop node1 s) value).1.
Proof.
  intros H. pose proof (conforms_object _ _ _ H) as (_ & _ & Hn & Hk).
  destruct (vivify_conforms _ _ _ _ H) as (node1 & Hv & _). exists node1.
  split; [done|]. split; [|apply get_link_setIn].
  rewrite setIn_loop_step, Hn, Hv, andb_false_r.
  assert (isIndex s && negb (isArray node) = false) as ->.
  { unfold kindAgrees in Hk. destruct (isIndex s); [|done]. by rewrite Hk. }
  by destruct (setIn_loop (next :: rest) (get_prop node1 s) value).
Qed.

(** On a root that conforms to the segments, [setIn] returns, [getIn] then
    reads the value, and the root conforms still. *)
Lemma setIn_loop_conforms segments root value :
  segments <> [] -> conforms segments root = true ->
  exists root',
    setIn_loop segments root value = (root', None) /\
    getIn_loop segments root' = value /\
    conforms segments root' = true.
Proof.
  revert root. induction segments as [|s [|next rest] IH]; intros root Hne Hc;
    [done|..].
  - rewrite conforms_last in Hc. rewrite setIn_loop_last.
    destruct (set_prop_agrees s root value Hc) as (root' & Hs & Hg & _).
    exists root'. destruct (set_prop_kind _ _ _ _ _ Hs) as (Ha & Hm & _ & Hn).
    rewrite getIn_loop_cons, conforms_last, Hn, Hg.
    rewrite (kindAgrees_kind s root' root) by done.
    assert (nullish root = false) as ->.
    { unfold kindAgrees in Hc. by destruct (isIndex s), root. }
    repeat split; [|done..].
    unfold kindAgrees in Hc. destruct (isIndex s); [by rewrite Hc|done].
  - destruct (setIn_loop_first s next rest root value Hc) as (node1 & Hv & -> & Hg).
    destruct (vivify_conforms _ _ _ _ Hc) as (? & Hv' & Ha & Hm & Hn & Hcc & _).
    rewrite Hv in Hv'. injection Hv' as <-.
    destruct (IH (get_prop node1 s)) as (child & Hs & Hget & Hconf); [done..|].
    rewrite Hs in Hg |- *. cbn [fst snd] in Hg |- *. eexists. split; [done|].
    destruct (link_kind node1 s child) as (Ha' & Hm' & _ & Hn').
    rewrite getIn_loop_cons, Hn', Hn, Hg. split; [done|].
    apply conforms_cons. rewrite Hg. split; [|by right].
    rewrite (kindAgrees_kind s _ root) by congruence.
    by apply conforms_object in Hc as (_ & _ & _ & ?).
Qed.

(** X5: at a path without the name of an inherited property, when the
    root conforms to the path (every node the path leads through is a
    sequence before an index segment and a mapping before a key segment, as
    far as nodes are there), [setIn] returns without raising, [getIn] then
    reads the value at the path and, at a path that goes on below it, what
    it reads in the value; and the root conforms to the path still. *)
Theorem setIn_on_conforming_root root p value :
  ownPath p = true ->
  conforms (splitPath p) root = true ->
  exists root',
    setIn root p value = (root', None) /\
    getIn root' p = value /\
    (forall q, getIn root' (p +:+ "." +:+ q) = getIn value q) /\
    conforms (splitPath p) root' = true.
Proof.
  intros _ Hc. unfold setIn, getIn.
  destruct (setIn_loop_conforms (splitPath p) root value)
    as (root' & Hs & Hg & Hc'); [apply splitPath_nonempty|done|].
  exists root'. repeat split; [done..| |done].
  intros q. by rewrite splitPath_app, getIn_loop_app, Hg.
Qed.

Lemma setIn_on_conforming_root_witness :
  exists root',
    setIn sample "user.contacts.2" (VObj {["type" := VStr "fax"]}) = (root', None) /\
    getIn root' "user.contacts.2" = VObj {["type" := VStr "fax"]} /\
    (forall q, getIn root' ("user.contacts.2" +:+ "." +:+ q)
               = getIn (VObj {["type" := VStr "fax"]}) q) /\
    conforms (splitPath "user.contacts.2") root' = true.
Proof.
  apply (setIn_on_conforming_root sample "user.contacts.2"
           (VObj {["type" := VStr "fax"]})).
  - vm_compute; reflexivity.
  - vm_compute; reflexivity.
Defined.

(** ** deleteIn at other paths *)

Lemma delete_prop_other node k node' e j :
  delete_prop node k = (node', e) -> j <> k -> get_prop node' j = get_prop node j.
Proof.
  intros H Hj. destruct node; simpl in H; simplify_eq; try done; simpl.
  - by rewrite lookup_delete_ne.
  - destruct (String.eqb k "length"); simplify_eq; [done|]. simpl.
    by rewrite lookup_delete_ne.
Qed.

(** The node a non-terminal call of [deleteNode] leaves: the node with the
    child as the recursive call left it, or that node without the child,
    which was an empty mapping. *)
Lemma deleteNode_step_node segment segment' rest node :
  nullish node = false ->
  let next' := (deleteNode segment' rest (nextNode segment node)).1 in
  let node1 := if hasNext segment node then link node segment next' else node in
  let node2 := (deleteNode segment (segment' :: rest) node).1 in
  nullish node2 = false /\
  (forall j, j <> segment -> get_prop node2 j = get_prop node j) /\
  (get_prop node2 segment = get_prop node1 segment \/
   (get_prop node2 segment = VUndef /\
    isEmptyObject (get_prop node1 segment) = true)).
Proof.
  intros Hn. rewrite deleteNode_step by done. simpl.
  destruct (deleteNode segment' rest (nextNode segment node)) as [next' r].
  simpl. set (node1 := if hasNext segment node then _ else _).
  assert (nullish node1 = false) as Hn1.
  { unfold node1. destruct (hasNext segment node); [|done].
    by destruct (link_kind node segment next') as (_ & _ & _ & ->). }
  assert (forall j, j <> segment -> get_prop node1 j = get_prop node j) as Ho1.
  { intros j Hj. unfold node1. destruct (hasNext segment node); [|done].
    by apply link_other. }
  destruct r as [[]|e]; simpl; [|by auto..].
  destruct (prune_spec node1 segment) as (node2 & Hp & _ & _ & Hn2 & _ & Hc).
  rewrite Hp. simpl. split; [congruence|]. split.
  - intros j Hj. rewrite <- Ho1 by done. unfold prune in Hp.
    destruct (isObjectType node1); [|by simplify_eq].
    destruct (isEmptyObject _); [|by simplify_eq].
    by apply (delete_prop_other _ _ _ _ j) in Hp.
  - destruct Hc as [->|?]; auto.
Qed.

(** What is under the segment after the recursive call. *)
Lemma deleteNode_child segment segment' rest node :
  let next' := (deleteNode segment' rest (nextNode segment node)).1 in
  get_prop (if hasNext segment node then link node segment next' else node) segment
  = if hasNext segment node then next' else get_prop node segment.
Proof.
  simpl. destruct (hasNext segment node) eqn:Eh; [|done].
  destruct (deleteNode segment' rest (nextNode segment node)) as [next' r] eqn:Er.
  pose proof (deleteNode_result _ _ _ _ _ Er) as (_ & Ho' & _ & Hl' & _).
  destruct (nextNode_link segment node next' Ho' Hl') as [Hnx _].
  rewrite Eh in Hnx. simpl.
  rewrite nextNode_hasNext in Hnx.
  destruct (link_kind node segment next') as (Ha & _ & Hob & _).
  assert (hasNext segment (link node segment next') = true) as Eh'.
  { unfold hasNext in *. destruct (isIndex segment); congruence. }
  by rewrite Eh' in Hnx.
Qed.

Lemma deleteNode_other segment rest node j :
  j <> segment -> get_prop (deleteNode segment rest node).1 j = get_prop node j.
Proof.
  intros Hj. destruct (nullish node) eqn:Hn; [by rewrite deleteNode_null|].
  destruct rest as [|segment' rest].
  - rewrite deleteNode_last by done.
    destruct (isObjectType node); [|done].
    destruct (delete_prop node segment) as [n e] eqn:Ed.
    apply (delete_prop_other _ _ _ _ j) in Ed; [|done]. by destruct e.
  - by apply deleteNode_step_node.
Qed.

Lemma getIn_loop_empty s segments node :
  isEmptyObject node = true -> getIn_loop (s :: segments) node = VUndef.
Proof.
  destruct node as [| | | | |props|]; try done. simpl isEmptyObject.
  intros ->%Nat.eqb_eq%map_size_empty_inv. rewrite getIn_loop_cons. simpl.
  rewrite lookup_empty. apply getIn_loop_undef.
Qed.

(** [deleteNode] removes along its segments only, whether it returns or
    raises: what [getIn] reads along segments that leave them is what it
    read before. *)
Lemma deleteNode_frame common sp restp sq restq segment rest node :
  segment :: rest = common ++ sp :: restp -> sq <> sp ->
  getIn_loop (common ++ sq :: restq) (deleteNode segment rest node).1
  = getIn_loop (common ++ sq :: restq) node.
Proof.
  revert segment rest node.
  induction common as [|s common IH]; intros segment rest node Hs Hq.
  - simpl in Hs. injection Hs as -> ->. simpl app. rewrite !getIn_loop_cons.
    destruct (deleteNode sp restp node) as [node' r] eqn:E.
    pose proof (deleteNode_other sp restp node sq Hq) as Ho.
    rewrite E in Ho. simpl in *.
    apply deleteNode_result in E as (_ & _ & -> & _). by rewrite Ho.
  - rewrite <- app_comm_cons in Hs. injection Hs as -> ->.
    destruct (common ++ sp :: restp) as [|segment' rest'] eqn:Hc;
      [by destruct common|].
    rewrite <- !app_comm_cons.
    destruct (nullish node) eqn:Hn; [by rewrite deleteNode_null|].
    destruct (deleteNode_step_node s segment' rest' node Hn) as (Hn2 & _ & Hg).
    pose proof (deleteNode_child s segment' rest' node) as Hch. simpl in Hch.
    specialize (IH segment' rest' (nextNode s node) eq_refl Hq).
    rewrite !(getIn_loop_cons s), Hn2, Hn.
    cbv zeta in Hg. rewrite Hch in Hg. rewrite nextNode_hasNext in IH, Hg.
    destruct (hasNext s node) eqn:Eh.
    + destruct Hg as [->|[-> He]]; [done|].
      rewrite getIn_loop_undef. rewrite <- IH.
      destruct common; simpl app; by rewrite getIn_loop_empty.
    + destruct Hg as [->|[-> He]]; [done|].
      rewrite getIn_loop_undef.
      destruct common; simpl app; by rewrite getIn_loop_empty.
Qed.

(** X6: [deleteIn] removes along its path only.  No segment of the two
    paths being the name of an inherited property: at a path that leaves the
    path of the call at some segment, [getIn] reads after the call what it
    read before, whether the call returned or raised: pruning takes away
    mappings that have become empty, under which nothing was to read. *)
Theorem deleteIn_leaves_other_paths root p q common sp restp sq restq :
  ownPath p = true -> ownPath q = true ->
  splitPath p = common ++ sp :: restp ->
  splitPath q = common ++ sq :: restq ->
  sq <> sp ->
  getIn (deleteIn root p).1 q = getIn root q.
Proof.
  intros _ _. unfold getIn, deleteIn. intros Hp -> Hne.
  destruct (splitPath p) as [|segment rest]; [done|].
  by apply (deleteNode_frame common sp restp).
Qed.

Lemma deleteIn_leaves_other_paths_witness :
  getIn (deleteIn sample "user.address.city").1 "user.address.zip"
  = getIn sample "user.address.zip".
Proof.
  apply (deleteIn_leaves_other_paths sample "user.address.city"
           "user.address.zip" ["user"; "address"] "city" [] "zip" []).
  - vm_compute; reflexivity.
  - vm_compute; reflexivity.
  - vm_compute; reflexivity.
  - vm_compute; reflexivity.
  - discriminate.
Defined.

(** At segments that do not end inside the segments of the call, [getIn]
    reads after [deleteNode] what it read before, or nothing. *)
Lemma deleteNode_only_removes q segment rest node :
  endsInside q (segment :: rest) = false ->
  getIn_loop q (deleteNode segment rest node).1 = getIn_loop q node \/
  getIn_loop q (deleteNode segment rest node).1 = VUndef.
Proof.
  revert segment rest node.
  induction q as [|sq q IH]; intros segment rest node Hq; [done|].
  destruct (decide (sq = segment)) as [->|Hne].
  2:{ left. by apply (deleteNode_frame [] segment rest sq q). }
  simpl in Hq. rewrite String.eqb_refl in Hq. simpl in Hq.
  destruct (nullish node) eqn:Hn; [left; by rewrite deleteNode_null|].
  destruct rest as [|segment' rest].
  - rewrite deleteNode_last by done. rewrite !getIn_loop_cons.
    destruct (isObjectType node) eqn:Ho; [|by left].
    destruct (delete_prop node segment) as [n e] eqn:Ed.
    destruct e as [e|]; simpl.
    + apply delete_prop_error in Ed as (-> & _). by left.
    + right. rewrite (delete_prop_get _ _ _ Ed Ho), getIn_loop_undef.
      by destruct (nullish n).
  - destruct (deleteNode_step_node segment segment' rest node Hn) as (Hn2 & _ & Hg).
    pose proof (deleteNode_child segment segment' rest node) as Hch. simpl in Hch.
    rewrite !getIn_loop_cons, Hn2, Hn.
    specialize (IH segment' rest (nextNode segment node) Hq).
    cbv zeta in Hg. rewrite Hch in Hg. rewrite nextNode_hasNext in IH, Hg.
    destruct Hg as [->|[-> _]]; [|right; apply getIn_loop_undef].
    destruct (hasNext segment node); [done|by left].
Qed.

(** X7: [deleteIn] only removes.  No segment of the two paths being the
    name of an inherited property: at every path but the paths that end
    inside the path of the call (the containers the call walks through),
    [getIn] reads after the call what it read before, or [undefined]:
    no value is added or replaced by another one. *)
Theorem deleteIn_only_removes root p q :
  ownPath p = true -> ownPath q = true ->
  endsInside (splitPath q) (splitPath p) = false ->
  getIn (deleteIn root p).1 q = getIn root q \/
  getIn (deleteIn root p).1 q = VUndef.
Proof.
  intros _ _. unfold getIn, deleteIn. intros Hq.
  destruct (splitPath p) as [|segment rest]; [by left|].
  by apply deleteNode_only_removes.
Qed.

Lemma deleteIn_only_removes_witness :
  getIn (deleteIn sample "user.address").1 "user.address.city"
  = getIn sample "user.address.city" \/
  getIn (deleteIn sample "user.address").1 "user.address.city" = VUndef.
Proof.
  apply (deleteIn_only_removes sample "user.address" "user.address.city").
  - vm_compute; reflexivity.
  - vm_compute; reflexivity.
  - vm_compute; reflexivity.
Defined.

(** ** What deleteIn returns, and what getIn reads after it *)

Lemma deleteNode_normal segment rest node :
  List.last (segment :: rest) "" <> "length" ->
  exists node',
    deleteNode segment rest node
    = (node', Normal (nullish node' || isEmptyObject node')).
Proof.
  revert segment node. induction rest as [|segment' rest IH]; intros segment node Hl.
  all: destruct (nullish node) eqn:Hn;
    [rewrite deleteNode_null by done; exists node; by rewrite Hn|].
  - simpl in Hl.
    destruct (deleteNode segment [] node) as [node' r] eqn:E.
    pose proof (deleteNode_result _ _ _ _ _ E) as (_ & _ & _ & _ & Hr).
    exists node'. destruct r as [b|e]; [by subst|].
    rewrite deleteNode_last in E by done.
    destruct (isObjectType node); [|done].
    destruct (delete_prop node segment) as [n [e'|]] eqn:Ed; [|done].
    destruct node; try done. simpl in Ed.
    apply String.eqb_neq in Hl. by rewrite Hl in Ed.
  - change (List.last (segment :: segment' :: rest) "") with
      (List.last (segment' :: rest) "") in Hl.
    destruct (deleteNode segment (segment' :: rest) node) as [node' r] eqn:E.
    pose proof (deleteNode_result _ _ _ _ _ E) as (_ & _ & _ & _ & Hr).
    exists node'. destruct r as [b|e]; [by subst|].
    rewrite deleteNode_step in E by done.
    destruct (IH segment' (nextNode segment node)) as (next' & Hrec); [done|].
    rewrite Hrec in E. cbv beta iota zeta in E.
    destruct (prune_spec (if hasNext segment node then link node segment next' else node)
                segment) as (node2 & Hp & _).
    destruct (nullish next' || isEmptyObject next'); [by rewrite Hp in E|done].
Qed.

(** X8: the one thing [deleteIn] can raise on is a last segment ["length"]
    (the length of an array cannot be deleted).  With another last segment
    it returns, and what it returns tells how it leaves the root: [true]
    when the root is null, undefined or a mapping without keys, [false]
    otherwise. *)
Theorem deleteIn_returns root p :
  lastSegment p <> "length" ->
  exists root',
    deleteIn root p = (root', Normal (nullish root' || isEmptyObject root')).
Proof.
  unfold deleteIn, lastSegment. intros Hl.
  destruct (splitPath p) as [|segment rest] eqn:E; [by apply splitPath_nonempty in E|].
  by apply deleteNode_normal.
Qed.

Lemma deleteIn_returns_witness :
  exists root',
    deleteIn sample "user.tags.0"
    = (root', Normal (nullish root' || isEmptyObject root')).
Proof.
  apply (deleteIn_returns sample "user.tags.0"). vm_compute; discriminate.
Defined.

Lemma deleteNode_getIn segment rest node node' b :
  deleteNode segment rest node = (node', Normal b) ->
  deletable segment rest node = true ->
  getIn_loop (segment :: rest) node' = VUndef.
Proof.
  revert segment node node' b.
  induction rest as [|segment' rest IH]; intros segment node node' b.
  all: destruct (nullish node) eqn:Hn;
    [rewrite deleteNode_null by done; intros [= <- _] _;
     by rewrite getIn_loop_cons, Hn|].
  - rewrite deleteNode_last by done. simpl deletable. rewrite Hn. simpl orb.
    intros E Ho.
    rewrite Ho in E. destruct (delete_prop node segment) as [n [e|]] eqn:Ed; [done|].
    injection E as <- _. rewrite getIn_loop_cons.
    rewrite (delete_prop_get _ _ _ Ed Ho). by destruct (nullish n).
  - intros E Hd.
    destruct (deleteNode_step_node segment segment' rest node Hn) as (Hn2 & _ & Hg).
    pose proof (deleteNode_child segment segment' rest node) as Hch.
    cbv zeta in Hg, Hch. rewrite Hch in Hg. rewrite E in Hn2, Hg. simpl in Hn2, Hg.
    change (deletable segment (segment' :: rest) node) with
      (nullish node || (hasNext segment node
                        && deletable segment' rest (get_prop node segment))) in Hd.
    rewrite Hn in Hd. simpl in Hd. apply andb_prop in Hd as [Hh Hd].
    rewrite Hh in Hg. rewrite getIn_loop_cons, Hn2.
    destruct Hg as [->|[-> _]]; [|apply getIn_loop_undef].
    rewrite deleteNode_step in E by done.
    rewrite nextNode_hasNext, Hh in E |- *.
    destruct (deleteNode segment' rest (get_prop node segment)) as [next' [b'|e]] eqn:Er;
      [|done].
    simpl. by eapply IH.
Qed.

(** X9: after a [deleteIn] that returned, at a path without the name of
    an inherited property, [getIn] reads [undefined] at the path, when the
    walk of [deleteIn] goes the way [getIn] reads: the nodes the path leads
    through are objects, and arrays before the index segments that are not
    the last.  (Before an index segment a plain object is read by [getIn]
    and passed over by [deleteIn], and what a string holds cannot be
    deleted.) *)
Theorem deleteIn_then_getIn root p root' b :
  ownPath p = true ->
  deleteIn root p = (root', Normal b) ->
  deletablePath root p = true ->
  getIn root' p = VUndef.
Proof.
  intros _. unfold deleteIn, deletablePath, getIn.
  destruct (splitPath p) as [|segment rest]; [done|]. apply deleteNode_getIn.
Qed.

Lemma deleteIn_then_getIn_witness :
  getIn (deleteIn sample "user.contacts.0.type").1 "user.contacts.0.type" = VUndef.
Proof.
  apply (deleteIn_then_getIn sample "user.contacts.0.type" _ false).
  - vm_compute; reflexivity.
  - vm_compute; reflexivity.
  - vm_compute; reflexivity.
Defined.

Lemma deleteNode_passes segment rest node :
  passesOver segment rest node = true ->
  getIn_loop (segment :: rest) (deleteNode segment rest node).1
  = getIn_loop (segment :: rest) node.
Proof.
  revert segment node. induction rest as [|segment' rest IH]; intros segment node;
    [done|].
  change (passesOver segment (segment' :: rest) node) with
    (negb (nullish node) &&
     (negb (hasNext segment node)
      || passesOver segment' rest (get_prop node segment))).
  intros [Hn%negb_true_iff Hp]%andb_prop.
  destruct (deleteNode_step_node segment segment' rest node Hn) as (Hn2 & _ & Hg).
  pose proof (deleteNode_child segment segment' rest node) as Hch.
  cbv zeta in Hg, Hch. rewrite Hch in Hg.
  rewrite !(getIn_loop_cons segment), Hn2, Hn.
  specialize (IH segment' (nextNode segment node)).
  rewrite nextNode_hasNext in IH, Hg.
  destruct (hasNext segment node); simpl in Hp.
  - specialize (IH Hp). destruct Hg as [->|[-> He]]; [done|].
    by rewrite getIn_loop_undef, <- IH, getIn_loop_empty.
  - destruct Hg as [->|[-> He]]; [done|].
    by rewrite getIn_loop_undef, getIn_loop_empty.
Qed.

(** X15: [deleteIn] passes over what [getIn] reads from a node that is
    not of the kind of the segment.  At a path without the name of an
    inherited property: when the walk comes, before the last segment, to an
    index segment at a node that is no array (a plain object with the key, a
    string), or to a key segment at a value that is no object, nothing is
    deleted at the path: [getIn] reads there after the call what it read
    before. *)
Theorem deleteIn_passes_over root p :
  ownPath p = true ->
  passesOverPath root p = true ->
  getIn (deleteIn root p).1 p = getIn root p.
Proof.
  intros _. unfold passesOverPath, getIn, deleteIn.
  destruct (splitPath p) as [|segment rest]; [done|]. apply deleteNode_passes.
Qed.

Lemma deleteIn_passes_over_witness :
  let root := VObj {["2024" := VObj {["secret" := VStr "x"]}]} in
  getIn (deleteIn root "2024.secret").1 "2024.secret" = getIn root "2024.secret" /\
  getIn root "2024.secret" = VStr "x".
Proof.
  intros root. split; [|vm_compute; reflexivity].
  apply (deleteIn_passes_over root "2024.secret").
  - vm_compute; reflexivity.
  - vm_compute; reflexivity.
Defined.

(** ** setIn and then deleteIn *)

Lemma setIn_loop_chain segment rest props value :
  forallb (fun s => negb (isIndex s)) (segment :: rest) = true ->
  get_prop (VObj props) segment = VUndef ->
  setIn_loop (segment :: rest) (VObj props) value
  = (VObj (<[segment := chain rest value]> props), None).
Proof.
  revert segment props. induction rest as [|next rest IH]; intros segment props.
  - rewrite setIn_loop_last. simpl. intros Hk _.
    apply andb_prop in Hk as [Hk%negb_true_iff _]. by rewrite Hk.
  - intros Hk Hu. rewrite setIn_loop_step.
    change (forallb _ (segment :: next :: rest)) with
      (negb (isIndex segment)
       && forallb (fun s => negb (isIndex s)) (next :: rest)) in Hk.
    apply andb_prop in Hk as [Hs%negb_true_iff Hk]. rewrite Hs. simpl andb. cbv iota.
    unfold vivify. rewrite Hu. simpl negb. cbv iota.
    assert (fresh next = VObj ∅) as ->.
    { unfold fresh. simpl in Hk. apply andb_prop in Hk as [Hn%negb_true_iff _].
      by rewrite Hn. }
    simpl set_prop. cbv iota beta.
    assert (get_prop (VObj (<[segment:=VObj ∅]> props)) segment = VObj ∅) as ->.
    { simpl. by rewrite lookup_insert_eq. }
    rewrite IH; [|done|by simpl; rewrite lookup_empty].
    simpl. by rewrite alter_insert_eq, insert_empty.
Qed.

Lemma deleteNode_chain segment rest props value :
  forallb (fun s => negb (isIndex s)) (segment :: rest) = true ->
  props !! segment = None ->
  deleteNode segment rest (VObj (<[segment := chain rest value]> props))
  = (VObj props, Normal (isEmptyObject (VObj props))).
Proof.
  revert segment props. induction rest as [|segment' rest IH]; intros segment props.
  - intros _ Hp. rewrite deleteNode_last by done. simpl.
    by rewrite delete_insert_eq, delete_id.
  - intros Hk Hp. rewrite deleteNode_step by done.
    change (forallb _ (segment :: segment' :: rest)) with
      (negb (isIndex segment)
       && forallb (fun s => negb (isIndex s)) (segment' :: rest)) in Hk.
    apply andb_prop in Hk as [Hs%negb_true_iff Hk].
    rewrite nextNode_hasNext. unfold hasNext. rewrite Hs. simpl isObjectType. cbv iota.
    assert (get_prop (VObj (<[segment:=chain (segment' :: rest) value]> props)) segment
            = VObj (<[segment' := chain rest value]> ∅)) as ->.
    { simpl. by rewrite lookup_insert_eq, insert_empty. }
    rewrite IH by done. simpl isEmptyObject. cbv iota beta.
    unfold prune. simpl link. simpl isObjectType. cbv iota.
    rewrite alter_insert_eq. simpl get_prop. rewrite lookup_insert_eq. simpl.
    by rewrite delete_insert_eq, delete_id.
Qed.

(** X10: [deleteIn] undoes [setIn] under a new key.  On a mapping that has
    no property under the first segment, for a path of key segments none of
    which is the name of an inherited property, [setIn] returns, and
    [deleteIn] at the path then leaves the mapping as it was before the two
    calls (the mappings [setIn] created are pruned), and returns whether it
    is empty. *)
Theorem setIn_then_deleteIn props p value :
  ownPath p = true ->
  keysOnly p = true -> props !! firstSegment p = None ->
  exists root1,
    setIn (VObj props) p value = (root1, None) /\
    deleteIn root1 p = (VObj props, Normal (isEmptyObject (VObj props))).
Proof.
  intros _. unfold keysOnly, firstSegment, setIn, deleteIn.
  destruct (splitPath p) as [|segment rest] eqn:E; [by apply splitPath_nonempty in E|].
  simpl hd. intros Hk Hp.
  eexists. split.
  - apply setIn_loop_chain; [done|]. simpl. by rewrite Hp.
  - by apply deleteNode_chain.
Qed.

Lemma setIn_then_deleteIn_witness :
  let props : gmap string val := {["user" := VObj {["name" := VStr "Jane"]}]} in
  exists root1,
    setIn (VObj props) "draft.address.city" (VStr "NY") = (root1, None) /\
    deleteIn root1 "draft.address.city"
    = (VObj props, Normal (isEmptyObject (VObj props))).
Proof.
  intros props.
  apply (setIn_then_deleteIn props "draft.address.city" (VStr "NY")).
  - vm_compute; reflexivity.
  - vm_compute; reflexivity.
  - vm_compute; reflexivity.
Defined.

(** * filterData *)

Lemma diverge_split l1 l2 :
  diverge l1 l2 = true ->
  exists common s1 r1 s2 r2,
    l1 = common ++ s1 :: r1 /\ l2 = common ++ s2 :: r2 /\ s1 <> s2.
Proof.
  revert l2. induction l1 as [|s1 r1 IH]; intros [|s2 r2]; try done. simpl.
  destruct (String.eqb_spec s1 s2) as [->|Hne].
  - intros (common & a & ra & b & rb & -> & -> & Hab)%IH.
    by exists (s2 :: common), a, ra, b, rb.
  - intros _. by exists [], s1, r1, s2, r2.
Qed.

(** ** With exclude *)

Lemma shape_undef v : shape v = VUndef -> v = VUndef.
Proof. by destruct v. Qed.

Lemma shape_kind v w :
  shape v = shape w ->
  nullish v = nullish w /\ isArray v = isArray w /\ isObjectType v = isObjectType w.
Proof. destruct v, w; simpl; intros H; by simplify_eq. Qed.

(** After [deleteNode], every path reads nothing, or a value of the kind it
    read before. *)
Lemma deleteNode_shrinks q segment rest node :
  getIn_loop q (deleteNode segment rest node).1 = VUndef \/
  shape (getIn_loop q (deleteNode segment rest node).1) = shape (getIn_loop q node).
Proof.
  revert segment rest node.
  induction q as [|sq q IH]; intros segment rest node.
  { right. simpl. destruct (deleteNode segment rest node) as [node' r] eqn:E.
    apply deleteNode_result in E as (Ha & Ho & _ & Hl & _). simpl.
    destruct node; try (by rewrite Hl); by destruct node'. }
  destruct (decide (sq = segment)) as [->|Hne].
  2:{ right. by rewrite (deleteNode_frame [] segment rest sq q segment rest). }
  destruct (nullish node) eqn:Hn; [right; by rewrite deleteNode_null|].
  destruct rest as [|segment' rest].
  - rewrite deleteNode_last by done. rewrite !getIn_loop_cons.
    destruct (isObjectType node) eqn:Ho; [|by right].
    destruct (delete_prop node segment) as [n e] eqn:Ed.
    destruct e as [e|]; simpl.
    + apply delete_prop_error in Ed as (-> & _). by right.
    + left. rewrite (delete_prop_get _ _ _ Ed Ho), getIn_loop_undef.
      by destruct (nullish n).
  - destruct (deleteNode_step_node segment segment' rest node Hn) as (Hn2 & _ & Hg).
    pose proof (deleteNode_child segment segment' rest node) as Hch.
    cbv zeta in Hg, Hch. rewrite Hch in Hg.
    rewrite !getIn_loop_cons, Hn2, Hn.
    specialize (IH segment' rest (nextNode segment node)).
    rewrite nextNode_hasNext in IH, Hg.
    destruct Hg as [->|[-> _]]; [|left; apply getIn_loop_undef].
    destruct (hasNext segment node); [done|by right].
Qed.

(** The walk of [deleteNode] goes the way [getIn] reads still when values
    have been removed. *)
Lemma deletable_shrinks segment rest node node' :
  (forall q, getIn_loop q node' = VUndef \/
             shape (getIn_loop q node') = shape (getIn_loop q node)) ->
  deletable segment rest node = true -> deletable segment rest node' = true.
Proof.
  revert segment node node'.
  induction rest as [|segment' rest IH]; intros segment node node' Hs.
  all: destruct (Hs []) as [Hu|Hk];
    [simpl in Hu; subst node'; done|simpl in Hk].
  all: apply shape_kind in Hk as (Hn & Ha & Ho).
  - simpl. by rewrite Hn, Ho.
  - change (deletable segment (segment' :: rest) ?n) with
      (nullish n || (hasNext segment n
                     && deletable segment' rest (get_prop n segment))).
    rewrite Hn. destruct (nullish node) eqn:En; [done|]. simpl.
    intros [Hh Hd]%andb_prop. apply andb_true_intro. split.
    + unfold hasNext in *. by rewrite Ha, Ho.
    + apply (IH _ (get_prop node segment)); [|done].
      intros q. specialize (Hs (segment :: q)).
      by rewrite !getIn_loop_cons, Hn, En in Hs.
Qed.

Lemma filterData_exclude_shrinks exclude pruned result :
  filterData_exclude exclude pruned = Normal result ->
  forall q, getIn_loop q result = VUndef \/
            shape (getIn_loop q result) = shape (getIn_loop q pruned).
Proof.
  revert pruned. induction exclude as [|p exclude IH]; intros pruned.
  - intros [= <-] q. by right.
  - simpl. destruct (deleteIn pruned p) as [pruned' [b|e]] eqn:E; [|done].
    intros H q. destruct (IH _ H q) as [Hu|Hk]; [by left|].
    unfold deleteIn in E.
    destruct (splitPath p) as [|segment rest]; [simplify_eq; by right|].
    destruct (deleteNode_shrinks q segment rest pruned) as [Hu|Hk'];
      rewrite E in *; simpl in *.
    + left. apply shape_undef. by rewrite Hk, Hu.
    + right. congruence.
Qed.

Lemma filterData_exclude_normal exclude pruned :
  Forall (fun p => lastSegment p <> "length") exclude ->
  exists result, filterData_exclude exclude pruned = Normal result.
Proof.
  revert pruned. induction exclude as [|p exclude IH]; intros pruned Hl.
  - by eexists.
  - inversion Hl as [|? ? Hp Hl']; subst. simpl. unfold deleteIn.
    unfold lastSegment in Hp.
    destruct (splitPath p) as [|segment rest] eqn:Es; [apply IH, Hl'|].
    destruct (deleteNode_normal segment rest pruned Hp) as (n & ->).
    apply IH, Hl'.
Qed.

Lemma filterData_exclude_gone exclude pruned result p :
  filterData_exclude exclude pruned = Normal result ->
  p ∈ exclude -> deletablePath pruned p = true ->
  getIn result p = VUndef.
Proof.
  unfold deletablePath.
  revert pruned. induction exclude as [|p0 exclude IH]; intros pruned.
  { intros _ Hin. by apply elem_of_nil in Hin. }
  simpl. destruct (deleteIn pruned p0) as [pruned' [b|e]] eqn:E; [|done].
  intros H [->|Hin]%elem_of_cons Hd.
  - unfold deleteIn in E. unfold getIn.
    destruct (splitPath p0) as [|segment rest]; [done|].
    apply deleteNode_getIn in E; [|done].
    destruct (filterData_exclude_shrinks _ _ _ H (segment :: rest)) as [Hu|Hk];
      [done|].
    apply shape_undef. by rewrite Hk, E.
  - apply (IH pruned'); [done..|].
    destruct (splitPath p) as [|segment rest]; [done|].
    apply (deletable_shrinks _ _ pruned); [|done].
    intros q. unfold deleteIn in E.
    destruct (splitPath p0) as [|s0 r0]; [simplify_eq; by right|].
    pose proof (deleteNode_shrinks q s0 r0 pruned) as Hs. by rewrite E in Hs.
Qed.

Lemma filterData_exclude_frame exclude pruned result q :
  filterData_exclude exclude pruned = Normal result ->
  Forall (fun p => diverge (splitPath p) (splitPath q) = true) exclude ->
  getIn result q = getIn pruned q.
Proof.
  revert pruned. induction exclude as [|p exclude IH]; intros pruned.
  - by intros [= <-].
  - simpl. destruct (deleteIn pruned p) as [pruned' [b|e]] eqn:E; [|done].
    intros H Hall. inversion Hall as [|? ? Hp Hall']; subst.
    rewrite (IH _ H Hall'). unfold deleteIn in E. unfold getIn.
    apply diverge_split in Hp as (common & sp & rp & sq & rq & Hsp & -> & Hne).
    destruct (splitPath p) as [|segment rest]; [by destruct common|].
    pose proof (deleteNode_frame common sp rp sq rq segment rest pruned Hsp) as Hf.
    rewrite E in Hf. apply Hf. congruence.
Qed.

(** X11: without paths to include, and no segment of an excluded path
    being the name of an inherited property, [filterData] with [exclude]
    returns (it raises only on an excluded path that ends in ["length"]),
    and in what it returns [getIn] reads [undefined] at every excluded path
    along which the walk of [deleteIn] goes the way [getIn] reads in the
    data, whatever the order of the paths and however they overlap. *)
Theorem filterData_exclude_removes data include exclude :
  include = None \/ include = Some [] ->
  Forall (fun p => ownPath p = true) exclude ->
  Forall (fun p => lastSegment p <> "length") exclude ->
  exists result,
    filterData data include (Some exclude) = Normal result /\
    forall p, p ∈ exclude -> deletablePath data p = true ->
              getIn result p = VUndef.
Proof.
  intros Hi _ Hl.
  assert (filterData data include (Some exclude)
          = filterData_exclude exclude data) as ->.
  { destruct Hi as [-> | ->]; by destruct exclude. }
  destruct (filterData_exclude_normal exclude data Hl) as (result & Hr).
  exists result. split; [done|]. intros p. by apply filterData_exclude_gone.
Qed.

Lemma filterData_exclude_removes_witness :
  exists result,
    filterData sample None (Some ["user.address"; "user.contacts.0.value"])
    = Normal result /\
    getIn result "user.contacts.0.value" = VUndef.
Proof.
  destruct (filterData_exclude_removes sample None
              ["user.address"; "user.contacts.0.value"])
    as (result & Hr & Hall).
  - by left.
  - constructor; [vm_compute; reflexivity|].
    constructor; [vm_compute; reflexivity|]. constructor.
  - constructor; [vm_compute; discriminate|].
    constructor; [vm_compute; discriminate|]. constructor.
  - exists result. split; [exact Hr|]. apply Hall.
    + apply list_elem_of_further, list_elem_of_here.
    + vm_compute; reflexivity.
Defined.

(** X12: without paths to include, and no segment of the paths being the
    name of an inherited property, what [filterData] with [exclude] returns
    reads as the data does at every path that leaves each excluded path at
    some segment: only what is excluded, and the mappings this empties, is
    taken out. *)
Theorem filterData_exclude_keeps data include exclude result q :
  include = None \/ include = Some [] ->
  Forall (fun p => ownPath p = true) exclude -> ownPath q = true ->
  filterData data include (Some exclude) = Normal result ->
  Forall (fun p => diverge (splitPath p) (splitPath q) = true) exclude ->
  getIn result q = getIn data q.
Proof.
  intros Hi _ _.
  assert (filterData data include (Some exclude)
          = filterData_exclude exclude data) as ->.
  { destruct Hi as [-> | ->]; by destruct exclude. }
  apply filterData_exclude_frame.
Qed.

Lemma filterData_exclude_keeps_witness :
  let exclude := ["user.address"; "user.contacts.0.value"] in
  exists result,
    filterData sample None (Some exclude) = Normal result /\
    getIn result "user.contacts.0.type" = getIn sample "user.contacts.0.type".
Proof.
  intros exclude. eexists. split; [vm_compute; reflexivity|].
  apply (filterData_exclude_keeps sample None exclude _ "user.contacts.0.type").
  - by left.
  - constructor; [vm_compute; reflexivity|].
    constructor; [vm_compute; reflexivity|]. constructor.
  - vm_compute; reflexivity.
  - vm_compute; reflexivity.
  - constructor; [vm_compute; reflexivity|].
    constructor; [vm_compute; reflexivity|]. constructor.
Defined.

(** ** With include *)

Lemma isUndefined_true v : isUndefined v = true -> v = VUndef.
Proof. by destruct v. Qed.

Lemma conforms_empty p : keyFirst p = true -> conforms (splitPath p) (VObj ∅) = true.
Proof.
  unfold keyFirst, firstSegment. destruct (splitPath p) as [|s rest]; [done|].
  simpl hd. intros Hk%negb_true_iff.
  assert (kindAgrees s (VObj ∅) = true) as Ha.
  { unfold kindAgrees. by rewrite Hk. }
  destruct rest as [|next rest]; [by rewrite conforms_last|].
  apply conforms_cons. split; [done|]. left. simpl. by rewrite lookup_empty.
Qed.

Lemma apart_irrefl l : apart l l = false.
Proof. induction l as [|s l IH]; [done|]. simpl. by rewrite String.eqb_refl. Qed.

(** [setIn] along segments leaves what is at segments apart from them: the
    root conforms to them still, and [getIn] reads what it read. *)
Lemma setIn_loop_apart segments q root value :
  apart segments q = true ->
  conforms segments root = true -> conforms q root = true ->
  conforms q (setIn_loop segments root value).1 = true /\
  getIn_loop q (setIn_loop segments root value).1 = getIn_loop q root.
Proof.
  revert q root.
  induction segments as [|s rest IH]; intros [|sq rq] root; try done.
  simpl apart. destruct (String.eqb_spec s sq) as [<-|Hne].
  - (* the same segment: both go on below *)
    destruct rest as [|next rest]; [done|].
    destruct rq as [|sq' rq]; [by destruct (next :: rest)|].
    intros Hap Hc Hq.
    destruct (setIn_loop_first s next rest root value Hc) as (node1 & Hv & -> & Hg).
    destruct (vivify_conforms _ _ _ _ Hc) as (? & Hv' & Ha & Hm & Hn & Hcc & _ & Hch).
    rewrite Hv in Hv'. injection Hv' as <-.
    cbn [fst snd].
    assert (conforms (sq' :: rq) (get_prop node1 s) = true /\
            getIn_loop (sq' :: rq) (get_prop node1 s)
            = getIn_loop (sq' :: rq) (get_prop root s)) as [Hq1 Hq2].
    { destruct Hch as [He|[Hu He]]; rewrite He in Hcc |- *.
      - split; [|done]. apply conforms_cons in Hq as [_ [Hu|Hq]]; [|done].
        apply conforms_object in Hcc as (_ & _ & Hnn & _). by rewrite Hu in Hnn.
      - assert (isIndex sq' = isIndex next) as Hi.
        { simpl in Hap. destruct (String.eqb_spec next sq') as [->|_]; [done|].
          symmetry. by apply eqb_prop. }
        pose proof (conforms_fresh next sq' rq Hi) as Hf. split; [done|].
        rewrite Hu, getIn_loop_undef, getIn_loop_cons.
        destruct rq as [|sq'' rq]; [rewrite conforms_last in Hf|
                                   apply conforms_cons in Hf as [Hf _]].
        all: assert (get_prop (fresh next) sq' = VUndef) as ->
            by (unfold fresh in *; rewrite <- Hi in *;
                destruct (isIndex sq') eqn:E; simpl; [|done];
                apply isIndex_not_length, String.eqb_neq in E; by rewrite E).
        all: destruct (nullish (fresh next)); [done|apply getIn_loop_undef]. }
    destruct (IH (sq' :: rq) (get_prop node1 s) Hap Hcc Hq1) as [Hr1 Hr2].
    destruct (link_kind node1 s (setIn_loop (next :: rest) (get_prop node1 s) value).1)
      as (Ha' & Hm' & _ & Hn').
    split.
    + apply conforms_cons. rewrite Hg. split; [|by right].
      rewrite (kindAgrees_kind s _ root) by congruence.
      by apply conforms_object in Hq as (_ & _ & _ & ?).
    + rewrite !(getIn_loop_cons s), Hn', Hn, Hg, Hr2, Hq2.
      apply conforms_object in Hc as (_ & _ & -> & _). done.
  - (* the segments part here *)
    intros Hi%eqb_prop Hc Hq.
    pose proof (conforms_object _ _ _ Hc) as (_ & _ & Hn & Hks).
    pose proof (conforms_object _ _ _ Hq) as (_ & _ & _ & Hkq).
    destruct (setIn_loop_kind (s :: rest) root value) as (Ha & Hm & _ & Hn').
    assert (get_prop (setIn_loop (s :: rest) root value).1 sq = get_prop root sq)
      as Hg.
    { destruct rest as [|next rest].
      - rewrite conforms_last in Hc. rewrite setIn_loop_last.
        destruct (set_prop_agrees s root value Hc) as (root' & Hs & _ & Ho).
        assert (setIn_loop [s] root value = (root', None)) as Hs'.
        { rewrite setIn_loop_last. unfold kindAgrees in Hc.
          destruct (isIndex s); [by rewrite Hc|done]. }
        rewrite setIn_loop_last in Hs'. rewrite Hs'. by apply Ho.
      - destruct (setIn_loop_first s next rest root value Hc) as (node1 & Hv & -> & _).
        destruct (vivify_conforms _ _ _ _ Hc) as (? & Hv' & _ & _ & _ & _ & Ho & _).
        rewrite Hv in Hv'. injection Hv' as <-. cbn [fst snd].
        rewrite link_other by done. by apply Ho. }
    split.
    + destruct rq as [|sq' rq].
      * rewrite !conforms_last in *. by rewrite (kindAgrees_kind sq _ root).
      * apply conforms_cons. rewrite Hg, (kindAgrees_kind sq _ root) by done.
        by apply conforms_cons in Hq.
    + by rewrite !getIn_loop_cons, Hn', Hg.
Qed.

Section include.

Variable data : val.
Variable paths : list string.
Hypothesis Hkey : Forall (fun p => keyFirst p = true) paths.
Hypothesis Hind : independent paths = true.

Lemma independent_cases p1 p2 :
  p1 ∈ paths -> p2 ∈ paths ->
  p1 = p2 \/ apart (splitPath p1) (splitPath p2) = true.
Proof.
  intros H1 H2. unfold independent in Hind.
  rewrite forallb_forall in Hind. apply list_elem_of_In in H1, H2.
  specialize (Hind p1 H1). rewrite forallb_forall in Hind.
  specialize (Hind p2 H2). apply orb_prop in Hind as [He|Ha]; [|by right].
  left. by apply String.eqb_eq.
Qed.

(** The loop over the paths left keeps the root conforming to all the
    paths, and what is read at the paths it has gone through. *)
Lemma filterData_include_loop todo picked :
  todo ⊆ paths ->
  (forall p, p ∈ paths -> conforms (splitPath p) picked = true) ->
  (forall p, p ∈ paths ->
     getIn picked p = getIn data p \/ (p ∈ todo /\ getIn picked p = VUndef)) ->
  exists result,
    filterData_include data todo picked = Normal result /\
    forall p, p ∈ paths -> getIn result p = getIn data p.
Proof.
  revert picked. induction todo as [|p0 todo IH]; intros picked Hsub Hconf Hinv.
  { exists picked. split; [done|]. intros p Hp.
    destruct (Hinv p Hp) as [|[Hin _]]; [done|]. by apply elem_of_nil in Hin. }
  assert (p0 ∈ paths) as Hp0 by (apply Hsub; by left).
  assert (todo ⊆ paths) as Hsub' by (intros p Hp; apply Hsub; by right).
  simpl. destruct (isUndefined (getIn data p0)) eqn:Eu; simpl.
  - apply isUndefined_true in Eu. apply IH; [done..|].
    intros p Hp. destruct (Hinv p Hp) as [|[[->|Hin]%elem_of_cons Hun]]; auto.
    left. congruence.
  - unfold setIn.
    destruct (setIn_loop_conforms (splitPath p0) picked (getIn data p0))
      as (picked' & Hs & Hg & Hc'); [apply splitPath_nonempty|by apply Hconf|].
    rewrite Hs. apply IH; [done|..].
    + intros p Hp. destruct (independent_cases p0 p Hp0 Hp) as [<-|Ha]; [done|].
      pose proof (setIn_loop_apart _ _ picked (getIn data p0) Ha
                    (Hconf _ Hp0) (Hconf _ Hp)) as [Hc _].
      by rewrite Hs in Hc.
    + intros p Hp. destruct (independent_cases p0 p Hp0 Hp) as [<-|Ha]; [by left|].
      pose proof (setIn_loop_apart _ _ picked (getIn data p0) Ha
                    (Hconf _ Hp0) (Hconf _ Hp)) as [_ Hf].
      rewrite Hs in Hf. unfold getIn at 1 3. simpl in Hf. rewrite Hf.
      destruct (Hinv p Hp) as [|[[->|Hin]%elem_of_cons Hun]]; auto.
      by rewrite apart_irrefl in Ha.
Qed.

Lemma filterData_include_all :
  exists picked,
    filterData_include data paths (VObj ∅) = Normal picked /\
    forall p, p ∈ paths -> getIn picked p = getIn data p.
Proof.
  apply filterData_include_loop; [done|..].
  - intros p Hp. apply conforms_empty.
    rewrite Forall_forall in Hkey. by apply Hkey.
  - intros p Hp. right. split; [done|]. unfold getIn.
    destruct (splitPath p) as [|s rest] eqn:E; [by apply splitPath_nonempty in E|].
    by apply getIn_loop_empty.
Qed.

End include.

Lemma noLength_elem p s : noLength p = true -> s ∈ splitPath p -> s <> "length".
Proof.
  unfold noLength. rewrite forallb_forall. intros H Hs%list_elem_of_In.
  specialize (H s Hs). by apply negb_true_iff, String.eqb_neq in H.
Qed.

Lemma filterData_include_frame data include picked result q :
  filterData_include data include picked = Normal result ->
  noLength q = true ->
  Forall (fun p => noLength p = true /\ diverge (splitPath p) (splitPath q) = true)
    include ->
  getIn result q = getIn picked q.
Proof.
  intros H Hq. revert picked H.
  induction include as [|p include IH]; intros picked; [by intros [= <-]|].
  simpl. intros H Hall. inversion Hall as [|? ? [Hl Hd] Hall']; subst.
  destruct (isUndefined (getIn data p)); simpl in H; [by apply IH|].
  destruct (setIn picked p (getIn data p)) as [picked' [e|]] eqn:Es; [done|].
  rewrite (IH _ H Hall'). unfold setIn in Es. unfold getIn.
  apply diverge_split in Hd as (common & sp & rp & sq & rq & Hsp & Hsq & Hne).
  rewrite Hsp in Es. rewrite Hsq.
  pose proof (setIn_loop_frame common sp rp sq rq picked (getIn data p)) as Hf.
  rewrite Es in Hf. apply Hf; [congruence|..].
  - apply (noLength_elem p); [done|]. rewrite Hsp. set_solver.
  - apply (noLength_elem q); [done|]. rewrite Hsq. set_solver.
Qed.

(** X13: with paths to include that hold no name of an inherited
    property, that start with a key segment and none of which goes on below
    another one (any two are the same path, or part at two segments of the
    same kind), [filterData] returns, whatever [exclude] is, and in what it
    returns [getIn] reads at every included path what it reads in the
    data. *)
Theorem filterData_include_agrees data include exclude :
  include <> [] ->
  Forall (fun p => ownPath p = true) include ->
  Forall (fun p => keyFirst p = true) include ->
  independent include = true ->
  exists picked,
    filterData data (Some include) exclude = Normal picked /\
    forall p, p ∈ include -> getIn picked p = getIn data p.
Proof.
  intros Hne _ Hkey Hind.
  assert (filterData data (Some include) exclude
          = filterData_include data include (VObj ∅)) as ->
    by (by destruct include).
  by apply filterData_include_all.
Qed.

Lemma filterData_include_agrees_witness :
  let include := ["user.name"; "user.contacts.1.value"; "user.contacts.0.type"] in
  exists picked,
    filterData sample (Some include) (Some ["user.name"]) = Normal picked /\
    getIn picked "user.contacts.1.value" = getIn sample "user.contacts.1.value".
Proof.
  intros include.
  destruct (filterData_include_agrees sample include (Some ["user.name"]))
    as (picked & Hr & Hall).
  - discriminate.
  - constructor; [vm_compute; reflexivity|].
    constructor; [vm_compute; reflexivity|].
    constructor; [vm_compute; reflexivity|]. constructor.
  - constructor; [vm_compute; reflexivity|].
    constructor; [vm_compute; reflexivity|].
    constructor; [vm_compute; reflexivity|]. constructor.
  - vm_compute; reflexivity.
  - exists picked. split; [exact Hr|]. apply Hall.
    apply list_elem_of_further, list_elem_of_here.
Defined.

(** X14: with such paths to include, what [filterData] returns holds
    nothing beside them: [getIn] reads [undefined] at every path that leaves
    each included path at some segment, no segment of any of these paths
    being ["length"] (a sequence that is created has a length) or the name
    of an inherited property. *)
Theorem filterData_include_only data include exclude picked q :
  include <> [] ->
  Forall (fun p => ownPath p = true) include -> ownPath q = true ->
  independent include = true ->
  filterData data (Some include) exclude = Normal picked ->
  noLength q = true ->
  Forall (fun p => noLength p = true /\ diverge (splitPath p) (splitPath q) = true)
    include ->
  getIn picked q = VUndef.
Proof.
  intros Hne _ _ _.
  assert (filterData data (Some include) exclude
          = filterData_include data include (VObj ∅)) as ->
    by (by destruct include).
  intros Hr Hq Hall. rewrite (filterData_include_frame _ _ _ _ _ Hr Hq Hall).
  unfold getIn.
  destruct (splitPath q) as [|s rest] eqn:E; [by apply splitPath_nonempty in E|].
  by apply getIn_loop_empty.
Qed.

Lemma filterData_include_only_witness :
  let include := ["user.name"; "user.contacts.0.type"] in
  exists picked,
    filterData sample (Some include) None = Normal picked /\
    getIn picked "user.contacts.0.value" = VUndef.
Proof.
  intros include. eexists. split; [vm_compute; reflexivity|].
  apply (filterData_include_only sample include None _ "user.contacts.0.value").
  - discriminate.
  - constructor; [vm_compute; reflexivity|].
    constructor; [vm_compute; reflexivity|]. constructor.
  - vm_compute; reflexivity.
  - vm_compute; reflexivity.
  - vm_compute; reflexivity.
  - vm_compute; reflexivity.
  - constructor; [split; vm_compute; reflexivity|].
    constructor; [split; vm_compute; reflexivity|]. constructor.
Defined.
